(** * Tetrois: the board, the pieces and the game loop

    A shallow embedding of [tetrois.cpp] (the curses program) and of
    [tetrois_leagacy.cpp] (the raw-terminal program), and the properties of
    the game engine proved over it.

    Conventions of the embedding.
    - A C++ [int] is a [Z]; [/] is [Z.quot] and [%] is [Z.rem].  Signed
      overflow is undefined behaviour in C++ and is outside the model.
    - [std::vector<T>] is a [list T]; [v[i]] is the total lookup
      [v !!! Z.to_nat i] and [v[i] = e] is [<[Z.to_nat i := e]> v].  Every grid
      access of the source is guarded by [isInside] or by loop bounds, and
      the lemmas on [wf] boards show that the index is inside the vector.
    - The two programs share [Position], [Tetromino], [Block] and [Tetris]
      line for line, up to the type of the colour tag ([short colorPair] in
      the curses program, [std::string type] in the raw-terminal one).  The
      embedding is polymorphic in that type.
    - A [while] loop whose number of iterations is not bounded by the text
      takes fuel; the [Run] monad tells a result from exhausted fuel and from
      an unguarded out-of-range array read. *)

From stdpp Require Import base tactics option list list_numbers numbers strings.
From Stdlib Require Import ZArith Lia Bool List Sorted Ascii.

Local Open Scope Z_scope.

(** ** Results of code that may loop or read out of range *)

Inductive Run (A : Type) : Type :=
  | Ret (a : A)
  | OutOfFuel
  | OutOfRange.
Arguments Ret {A} a.
Arguments OutOfFuel {A}.
Arguments OutOfRange {A}.

Definition bind {A B : Type} (m : Run A) (k : A -> Run B) : Run B :=
  match m with
  | Ret a => k a
  | OutOfFuel => OutOfFuel
  | OutOfRange => OutOfRange
  end.

Notation "'let*' x := m 'in' k" := (bind m (fun x => k))
  (at level 10, x name, m at level 100, k at level 200).

(** ** Geometry *)

Record Position : Type := mkPosition { x : Z; y : Z }.

Definition padd (p q : Position) : Position := mkPosition (x p + x q) (y p + y q).
Definition psub (p q : Position) : Position := mkPosition (x p - x q) (y p - y q).

Definition VEC_DOWN : Position := mkPosition 0 1.
Definition VEC_LEFT : Position := mkPosition (-1) 0.
Definition VEC_RIGHT : Position := mkPosition 1 0.

Definition GRID_ROWS : Z := 20.
Definition GRID_COLS : Z := 10.

(** The two programs of the repository. *)
Inductive Program : Type := Curses | Legacy.

(** What the [if]/[else if] chain on the key makes of it. *)
Inductive Input : Type :=
  | Quit | MoveLeft | MoveRight | SoftDrop | RotateKey | HardDrop | OtherKey.

(** Key codes: character literals, and the arrow keys of <curses.h>. *)
Definition KEY_DOWN : Z := 258.
Definition KEY_UP : Z := 259.
Definition KEY_LEFT : Z := 260.
Definition KEY_RIGHT : Z := 261.
Definition chr_q : Z := 113.
Definition chr_a : Z := 97.
Definition chr_d : Z := 100.
Definition chr_s : Z := 115.
Definition chr_w : Z := 119.
Definition chr_space : Z := 32.

(** [std::chrono::steady_clock] counts nanoseconds (libstdc++, libc++ and
    MSVC alike); a reading of the clock is a [Z]. *)
Definition ticksPerMs : Z := 1000000.
Definition tenSeconds : Z := 10 * 1000 * ticksPerMs.

(** What [highscore.txt] holds when the program starts. *)
Inductive HighscoreFile : Type :=
  | NoFile
  | Unreadable
  | Stored (v : Z).

(** The colour tag of a cell: [noTag] is the tag [Block()] gives an empty
    cell, [pieceTag idx] the tag [getNewTetromino] gives the piece of shape
    [idx]. *)
Class TagOps (Tag : Type) : Type := mkTagOps {
  noTag : Tag;
  pieceTag : Z -> Tag
}.

(** [tetrois.cpp]: a [short] colour pair, 0 for an empty cell and
    [PAIR_PIECE_BASE + idx] for a piece. *)
Definition PAIR_PIECE_BASE : Z := 10.

#[export] Instance cursesTags : TagOps Z :=
  mkTagOps Z 0 (fun idx => PAIR_PIECE_BASE + idx).

(** [tetrois_leagacy.cpp]: an ANSI escape sequence, [RESET] for an empty
    cell and [colors[idx]] for a piece. *)
Definition ansi (code : string) : string :=
  String (Ascii.ascii_of_nat 27) (String.append "[" code).

Definition RESET : string := ansi "0m".

Definition colors : list string :=
  [ansi "1;33m"; ansi "1;36m"; ansi "1;32m"; ansi "1;31m"; ansi "1;35m";
   ansi "1;34m"; ansi "1;37m"].

#[export] Instance legacyTags : TagOps string :=
  mkTagOps string RESET (fun idx => nth (Z.to_nat idx) colors RESET).

Section Tetrois.

Context {Tag : Type} {tags : TagOps Tag}.

(** ** Pieces *)

Record Tetromino : Type := mkTetromino {
  blocks : list Position;
  colorPair : Tag;
  shapeIdx : Z
}.

Definition move (t : Tetromino) (direction : Position) : Tetromino :=
  mkTetromino (map (fun block => padd block direction) (blocks t))
              (colorPair t) (shapeIdx t).

(** [rotate] copies [blocks[0]] into [center] before the loop.  On an empty
    vector [blocks[0]] is an out-of-range read; no piece of the game has an
    empty vector, and the model leaves such a piece as it is. *)
Definition rotateBlock (center block : Position) : Position :=
  let rel_x := x block - x center in
  let rel_y := y block - y center in
  mkPosition (x center - rel_y) (y center + rel_x).

Definition rotate (t : Tetromino) : Tetromino :=
  if shapeIdx t =? 0 then t
  else match blocks t with
       | [] => t
       | center :: _ =>
           mkTetromino (map (rotateBlock center) (blocks t))
                       (colorPair t) (shapeIdx t)
       end.

(** ** The board *)

(** The field [colorPair] ([type] in the raw-terminal program) of a cell is
    [cellColor] here, the piece's field having the name. *)
Record Block : Type := mkBlock { cellColor : Tag; occupied : bool }.

Definition emptyBlock : Block := mkBlock noTag false.

#[global] Instance Block_inhabited : Inhabited Block := populate emptyBlock.

Record Tetris : Type := mkTetris {
  rows : Z;
  cols : Z;
  grid : list Block
}.

(** The constructor [Tetris(rows, cols)]: [rows * cols] default cells. *)
Definition newTetris (r c : Z) : Tetris :=
  mkTetris r c (replicate (Z.to_nat (r * c)) emptyBlock).

(** The class invariant: the constructor establishes it and the two mutators
    keep it. *)
Definition wf (g : Tetris) : Prop :=
  0 <= rows g /\ 0 <= cols g /\ length (grid g) = Z.to_nat (rows g * cols g).

Definition cellIndex (g : Tetris) (p : Position) : Z := y p * cols g + x p.

Definition isInside (g : Tetris) (p : Position) : bool :=
  (0 <=? x p) && (x p <? cols g) && (0 <=? y p) && (y p <? rows g).

Definition isOccupied (g : Tetris) (p : Position) : bool :=
  if negb (isInside g p) then true
  else occupied (grid g !!! Z.to_nat (cellIndex g p)).

Definition checkCollision (g : Tetris) (t : Tetromino) : bool :=
  existsb (isOccupied g) (blocks t).

Definition lockCell (g : Tetris) (c : Tag) (cells : list Block) (b : Position)
  : list Block :=
  if negb (isInside g b) then cells
  else <[Z.to_nat (cellIndex g b) := mkBlock c true]> cells.

Definition lockTetromino (g : Tetris) (t : Tetromino) : Tetris :=
  mkTetris (rows g) (cols g)
           (fold_left (lockCell g (colorPair t)) (blocks t) (grid g)).

(** [clearLines], first loop: the rows whose every column is occupied, in
    increasing order. *)
Definition rowFull (g : Tetris) (yy : Z) : bool :=
  forallb (fun xx => occupied (grid g !!! Z.to_nat (yy * cols g + xx)))
          (seqZ 0 (cols g)).

Definition linesToClear (g : Tetris) : list Z :=
  fold_left (fun acc yy => if rowFull g yy then acc ++ [yy] else acc)
            (seqZ 0 (rows g)) [].

(** [clearLines], second loop: from the bottom row up, a row that is not in
    [linesToClear] is copied to row [targetY] of the new grid. *)
Definition isCleared (lines : list Z) (yy : Z) : bool :=
  existsb (fun cy => yy =? cy) lines.

Definition copyRow (g : Tetris) (targetY yy : Z) (newGrid : list Block)
  : list Block :=
  fold_left (fun ng xx =>
               <[Z.to_nat (targetY * cols g + xx) :=
                   grid g !!! Z.to_nat (yy * cols g + xx)]> ng)
            (seqZ 0 (cols g)) newGrid.

Definition rebuildStep (g : Tetris) (lines : list Z)
    (st : list Block * Z) (yy : Z) : list Block * Z :=
  if isCleared lines yy then st
  else (copyRow g (snd st) yy (fst st), snd st - 1).

Definition rebuild (g : Tetris) (lines : list Z) : list Block * Z :=
  fold_left (rebuildStep g lines) (rev (seqZ 0 (rows g)))
            (replicate (Z.to_nat (rows g * cols g)) emptyBlock, rows g - 1).

Definition clearLines (g : Tetris) : Tetris * Z :=
  let lines := linesToClear g in
  match lines with
  | [] => (g, 0)
  | _ => (mkTetris (rows g) (cols g) (fst (rebuild g lines)),
          Z.of_nat (length lines))
  end.

(** [getGhost]: the [while] loop takes fuel. *)
Fixpoint ghostLoop (fuel : nat) (g : Tetris) (t : Tetromino) : Run Tetromino :=
  if checkCollision g t then Ret t
  else match fuel with
       | O => OutOfFuel
       | S fuel' => ghostLoop fuel' g (move t VEC_DOWN)
       end.

Definition getGhost (fuel : nat) (g : Tetris) (t : Tetromino) : Run Tetromino :=
  let* t' := ghostLoop fuel g t in
  Ret (move t' (mkPosition 0 (-1))).

(** ** The game loop *)

Record GameState : Type := mkGameState {
  game : Tetris;
  tetromino : Tetromino;
  nextT : Tetromino;
  score : Z;
  level : Z;
  totalLines : Z;
  highscore : Z;
  dropIntervalMs : Z;
  lastDrop : Z;
  gameOver : bool
}.

Definition setTetromino (t : Tetromino) (s : GameState) : GameState :=
  mkGameState (game s) t (nextT s) (score s) (level s) (totalLines s)
              (highscore s) (dropIntervalMs s) (lastDrop s) (gameOver s).
Definition setLastDrop (d : Z) (s : GameState) : GameState :=
  mkGameState (game s) (tetromino s) (nextT s) (score s) (level s)
              (totalLines s) (highscore s) (dropIntervalMs s) d (gameOver s).
Definition setGameOver (b : bool) (s : GameState) : GameState :=
  mkGameState (game s) (tetromino s) (nextT s) (score s) (level s)
              (totalLines s) (highscore s) (dropIntervalMs s) (lastDrop s) b.

(** What one turn of the loop reads from outside: the key (if any), the
    clock when the hard drop reads it, the clock when gravity reads it, and
    the value of [rand()] when a new piece is drawn. *)
Record Event : Type := mkEvent {
  key : option Z;
  clockInput : Z;
  clockGravity : Z;
  randValue : N
}.

Definition lineScores : list Z := [0; 40; 100; 300; 1200].

Definition shapes : list (list Position) :=
  [ [mkPosition 4 0; mkPosition 5 0; mkPosition 4 1; mkPosition 5 1];
    [mkPosition 3 0; mkPosition 4 0; mkPosition 5 0; mkPosition 6 0];
    [mkPosition 5 0; mkPosition 6 0; mkPosition 4 1; mkPosition 5 1];
    [mkPosition 4 0; mkPosition 5 0; mkPosition 5 1; mkPosition 6 1];
    [mkPosition 4 0; mkPosition 5 0; mkPosition 6 0; mkPosition 5 1];
    [mkPosition 4 0; mkPosition 5 0; mkPosition 6 0; mkPosition 4 1];
    [mkPosition 4 0; mkPosition 5 0; mkPosition 6 0; mkPosition 6 1] ].

Definition getNewTetromino (r : N) : Tetromino :=
  let idx := Z.rem (Z.of_N r) (Z.of_nat (length shapes)) in
  mkTetromino (shapes !!! Z.to_nat idx) (pieceTag idx) idx.

Definition decodeKey (prog : Program) (ch : Z) : Input :=
  match prog with
  | Curses =>
      if ch =? chr_q then Quit
      else if (ch =? chr_a) || (ch =? KEY_LEFT) then MoveLeft
      else if (ch =? chr_d) || (ch =? KEY_RIGHT) then MoveRight
      else if (ch =? chr_s) || (ch =? KEY_DOWN) then SoftDrop
      else if (ch =? chr_w) || (ch =? KEY_UP) then RotateKey
      else if ch =? chr_space then HardDrop
      else OtherKey
  | Legacy =>
      if ch =? chr_q then Quit
      else if ch =? chr_a then MoveLeft
      else if ch =? chr_d then MoveRight
      else if ch =? chr_s then SoftDrop
      else if ch =? chr_w then RotateKey
      else if ch =? chr_space then HardDrop
      else OtherKey
  end.

(** Left, right and down: the moved copy is committed when it is free. *)
Definition tryMove (g : Tetris) (t : Tetromino) (direction : Position)
  : Tetromino :=
  let temp := move t direction in
  if negb (checkCollision g temp) then temp else t.

(** Rotation in [tetrois.cpp]: the second kick starts again from the rotated
    copy ([kicked = temp]). *)
Definition tryRotate (g : Tetris) (t : Tetromino) : Tetromino :=
  let temp := rotate t in
  if negb (checkCollision g temp) then temp
  else
    let kicked := move temp VEC_RIGHT in
    if negb (checkCollision g kicked) then kicked
    else
      let kicked := move (move temp VEC_LEFT) VEC_LEFT in
      if negb (checkCollision g kicked) then kicked else t.

(** Rotation in [tetrois_leagacy.cpp]: the kicks move [temp] itself, so the
    second kick starts from the copy already moved right. *)
Definition tryRotateLegacy (g : Tetris) (t : Tetromino) : Tetromino :=
  let temp := rotate t in
  if negb (checkCollision g temp) then temp
  else
    let temp := move temp VEC_RIGHT in
    if negb (checkCollision g temp) then temp
    else
      let temp := move (move temp VEC_LEFT) VEC_LEFT in
      if negb (checkCollision g temp) then temp else t.

(** The hard drop's own loop, on the active piece. *)
Fixpoint hardDropLoop (fuel : nat) (g : Tetris) (t : Tetromino)
  : Run Tetromino :=
  if checkCollision g t then Ret t
  else match fuel with
       | O => OutOfFuel
       | S fuel' => hardDropLoop fuel' g (move t VEC_DOWN)
       end.

Definition hardDrop (fuel : nat) (ev : Event) (s : GameState) : Run GameState :=
  let* t := hardDropLoop fuel (game s) (tetromino s) in
  let t := move t (mkPosition 0 (-1)) in
  Ret (setLastDrop (clockInput ev - tenSeconds) (setTetromino t s)).

Definition handleInput (prog : Program) (fuel : nat) (ev : Event)
    (i : Input) (s : GameState) : Run GameState :=
  match i with
  | Quit => Ret (setGameOver true s)
  | MoveLeft => Ret (setTetromino (tryMove (game s) (tetromino s) VEC_LEFT) s)
  | MoveRight => Ret (setTetromino (tryMove (game s) (tetromino s) VEC_RIGHT) s)
  | SoftDrop => Ret (setTetromino (tryMove (game s) (tetromino s) VEC_DOWN) s)
  | RotateKey =>
      Ret (setTetromino
             (match prog with
              | Curses => tryRotate (game s) (tetromino s)
              | Legacy => tryRotateLegacy (game s) (tetromino s)
              end) s)
  | HardDrop => hardDrop fuel ev s
  | OtherKey => Ret s
  end.

Definition inputPhase (prog : Program) (fuel : nat) (ev : Event)
    (s : GameState) : Run GameState :=
  match key ev with
  | None => Ret s
  | Some ch => handleInput prog fuel ev (decodeKey prog ch) s
  end.

(** [lineScores[cleared]]: the index is not checked by the source. *)
Definition readLineScore (cleared : Z) : Run Z :=
  if cleared <? 0 then OutOfRange
  else match lineScores !! Z.to_nat cleared with
       | Some v => Ret v
       | None => OutOfRange
       end.

Definition scoring (cleared : Z) (s : GameState) : Run GameState :=
  if 0 <? cleared then
    let* points := readLineScore cleared in
    let score' := score s + points * level s in
    let totalLines' := totalLines s + cleared in
    let level' := Z.quot totalLines' 10 + 1 in
    let dropIntervalMs' := Z.max 100 (800 - level' * 50) in
    let highscore' := if highscore s <? score' then score' else highscore s in
    Ret (mkGameState (game s) (tetromino s) (nextT s) score' level'
                     totalLines' highscore' dropIntervalMs' (lastDrop s)
                     (gameOver s))
  else Ret s.

(** The lock branch of the gravity step. *)
Definition lockEvent (ev : Event) (s : GameState) : Run GameState :=
  let locked := lockTetromino (game s) (tetromino s) in
  let '(g, cleared) := clearLines locked in
  let* s := scoring cleared s in
  let t := nextT s in
  let n := getNewTetromino (randValue ev) in
  Ret (mkGameState g t n (score s) (level s) (totalLines s) (highscore s)
                   (dropIntervalMs s) (lastDrop s)
                   (if checkCollision g t then true else gameOver s)).

Definition gravityDue (ev : Event) (s : GameState) : bool :=
  dropIntervalMs s <? Z.quot (clockGravity ev - lastDrop s) ticksPerMs.

Definition gravityPhase (ev : Event) (s : GameState) : Run GameState :=
  if gravityDue ev s then
    let temp := move (tetromino s) VEC_DOWN in
    let* s := (if negb (checkCollision (game s) temp)
               then Ret (setTetromino temp s)
               else lockEvent ev s) in
    Ret (setLastDrop (clockGravity ev) s)
  else Ret s.

(** One turn of [while (!gameOver)]. *)
Definition iteration (prog : Program) (fuel : nat) (ev : Event)
    (s : GameState) : Run GameState :=
  let* s := inputPhase prog fuel ev s in
  gravityPhase ev s.

(** The loop on a finite trace of events; a trace that ends before the game
    does leaves the loop running. *)
Fixpoint whileNotGameOver (prog : Program) (fuel : nat) (evs : list Event)
    (s : GameState) : Run GameState :=
  if gameOver s then Ret s
  else match evs with
       | [] => OutOfFuel
       | ev :: evs' =>
           let* s := iteration prog fuel ev s in
           whileNotGameOver prog fuel evs' s
       end.

(** ** A session: [gameLoop()] of [tetrois.cpp], [main()] of the other *)

Definition loadHighscore (f : HighscoreFile) : Z :=
  match f with
  | NoFile => 0
  | Unreadable => 0
  | Stored v => v
  end.

Record Session : Type := mkSession {
  file : HighscoreFile;
  renderOnce : bool;
  rand1 : N;
  rand2 : N;
  clock0 : Z;
  events : list Event;
  pressed : Z
}.

Definition initialState (f : HighscoreFile) (r1 r2 : N) (c0 : Z) : GameState :=
  mkGameState (newTetris GRID_ROWS GRID_COLS)
              (getNewTetromino r1) (getNewTetromino r2)
              0 1 0 (loadHighscore f) 800 c0 false.

(** The outcome of a session: the value returned, and what was written to
    [highscore.txt] ([None]: the file was not opened for writing). *)
Record SessionEnd : Type := mkSessionEnd {
  restartRequested : bool;
  finalScore : Z;
  written : option Z
}.

Definition gameLoop (prog : Program) (fuel : nat) (ss : Session)
  : Run SessionEnd :=
  let s := initialState (file ss) (rand1 ss) (rand2 ss) (clock0 ss) in
  if renderOnce ss then Ret (mkSessionEnd false (score s) None)
  else
    let* s := whileNotGameOver prog fuel (events ss) s in
    let restart := match prog with
                   | Curses => pressed ss =? chr_space
                   | Legacy => false
                   end in
    Ret (mkSessionEnd restart (score s)
           (if highscore s <=? score s then Some (score s) else None)).

(** ** Stated behaviour of the rotation key, for comparison

    The candidates in the order the specification gives them: the rotated
    piece, the rotated piece one cell right, the rotated piece two cells left
    of the rotated position. *)
Definition firstFree (g : Tetris) (candidates : list Tetromino)
    (t : Tetromino) : Tetromino :=
  match find (fun c => negb (checkCollision g c)) candidates with
  | Some c => c
  | None => t
  end.

Definition statedCandidates (t : Tetromino) : list Tetromino :=
  [rotate t; move (rotate t) (mkPosition 1 0); move (rotate t) (mkPosition (-2) 0)].

(** The candidates each program tries. *)
Definition lastKick (prog : Program) : Position :=
  match prog with
  | Curses => mkPosition (-2) 0
  | Legacy => mkPosition (-1) 0
  end.

Definition candidates (prog : Program) (t : Tetromino) : list Tetromino :=
  [rotate t; move (rotate t) (mkPosition 1 0); move (rotate t) (lastKick prog)].

(** ** Rows of the board, for stating what [clearLines] does *)

(** The cells of row [yy], left to right. *)
Definition rowCells (g : Tetris) (yy : Z) : list Block :=
  take (Z.to_nat (cols g)) (drop (Z.to_nat (yy * cols g)) (grid g)).

Definition fullRows (g : Tetris) : list Z :=
  List.filter (rowFull g) (seqZ 0 (rows g)).

Definition keptRows (g : Tetris) : list Z :=
  List.filter (fun yy => negb (rowFull g yy)) (seqZ 0 (rows g)).

Definition emptyRow (g : Tetris) : list Block :=
  replicate (Z.to_nat (cols g)) emptyBlock.

(** ** States of the loop *)

(** The states at the head of the loop of a session that found [f] in the
    high-score file. *)
Inductive reachable (prog : Program) (f : HighscoreFile) : GameState -> Prop :=
  | reach_init (r1 r2 : N) (c0 : Z) :
      reachable prog f (initialState f r1 r2 c0)
  | reach_step (s s' : GameState) (ev : Event) (fuel : nat) :
      reachable prog f s -> gameOver s = false ->
      iteration prog fuel ev s = Ret s' ->
      reachable prog f s'.

(** What every turn of the loop keeps, whether the game is over or not. *)
Record Inv (hs0 : Z) (s : GameState) : Prop := mkInv {
  inv_wf : wf (game s);
  inv_rows : rows (game s) = GRID_ROWS;
  inv_cols : cols (game s) = GRID_COLS;
  inv_no_full_row : fullRows (game s) = [];
  inv_piece : length (blocks (tetromino s)) = 4%nat;
  inv_next : length (blocks (nextT s)) = 4%nat;
  inv_lines : 0 <= totalLines s;
  inv_level : level s = Z.quot (totalLines s) 10 + 1;
  inv_interval : 100 <= dropIntervalMs s <= 800;
  inv_score : 0 <= score s;
  inv_highscore :
    highscore s = hs0 \/ (highscore s = score s /\ hs0 <= score s)
}.

(** The active piece lies on free cells of the board. *)
Definition pieceFree (s : GameState) : Prop :=
  checkCollision (game s) (tetromino s) = false.

End Tetrois.

(** * The rest of the two programs *)

#[export] Instance Position_eq_dec : EqDecision Position.
Proof. solve_decision. Defined.

Definition opposite (d : Position) : Position := mkPosition (- x d) (- y d).

(** [k] rows down. *)
Definition down (k : nat) : Position := mkPosition 0 (Z.of_nat k).

Section Surroundings.

Context {Tag : Type} {tags : TagOps Tag}.

(** The number of occupied cells of a board. *)
Definition occupiedCount (g : @Tetris Tag) : nat :=
  length (List.filter occupied (grid g)).

(** ** [main] of [tetrois.cpp]

    [highscore.txt] after the [std::ofstream] of a session; a failed write
    is not modelled. *)
Definition saveHighscore (f : HighscoreFile) (w : option Z) : HighscoreFile :=
  match w with
  | Some v => Stored v
  | None => f
  end.

Definition withFile (f : HighscoreFile) (ss : Session) : Session :=
  mkSession f (renderOnce ss) (rand1 ss) (rand2 ss) (clock0 ss) (events ss)
            (pressed ss).

(** [do { is_running = gameLoop(); } while (is_running);] over the inputs of
    the sessions to come; each session opens the file the one before left.
    The function gives the file the program leaves. *)
Fixpoint main (fuel : nat) (f : HighscoreFile) (plays : list Session)
  : Run HighscoreFile :=
  match plays with
  | [] => OutOfFuel
  | ss :: plays' =>
      let* r := gameLoop (Tag:=Tag) Curses fuel (withFile f ss) in
      let f' := saveHighscore f (written r) in
      if restartRequested r then main fuel f' plays' else Ret f'
  end.

(** A turn reads the quit key. *)
Definition quitPressed (prog : Program) (ev : Event) : Prop :=
  exists ch, key ev = Some ch /\ decodeKey prog ch = Quit.

(** What the loop keeps besides [Inv]: the blocks of a piece lie on
    different cells, the drop interval and the high score are what the
    lines and the score so far make them, and the occupied cells are four
    per locked piece less ten per cleared line. *)
Record Tally (hs0 : Z) (s : @GameState Tag) : Prop := mkTally {
  tally_piece : NoDup (blocks (tetromino s));
  tally_next : NoDup (blocks (nextT s));
  tally_interval :
    dropIntervalMs s =
      if totalLines s =? 0 then 800 else Z.max 100 (800 - level s * 50);
  tally_highscore :
    highscore s = if score s =? 0 then hs0 else Z.max hs0 (score s);
  tally_cells :
    exists pieces : nat,
      Z.of_nat (occupiedCount (game s)) + GRID_COLS * totalLines s
      = 4 * Z.of_nat pieces
}.

End Surroundings.

(** * Drawing

    A [std::string] of the drawing code is a list of characters. *)

Definition ESC : ascii := Ascii.ascii_of_nat 27.

Definition spaces (n : nat) : list ascii := replicate n " "%char.

Definition CELL_W : Z := 3.
Definition DEFAULT_PANEL_W : Z := 18.

(** ** The text helpers of [tetrois_leagacy.cpp] *)

(** [stripAnsi]: the [for] loop copies characters; at an escape character
    the inner [while] runs up to the next ['m'], which the [continue] and the
    [++i] of the [for] then skip.  [inEscape] tells that the inner loop is
    running. *)
Fixpoint stripFrom (inEscape : bool) (s : list ascii) : list ascii :=
  match s with
  | [] => []
  | c :: s' =>
      if inEscape then
        if Ascii.eqb c "m" then stripFrom false s' else stripFrom true s'
      else if Ascii.eqb c ESC then stripFrom true s'
      else c :: stripFrom false s'
  end.

Definition stripAnsi (s : list ascii) : list ascii := stripFrom false s.

Definition visibleLen (s : list ascii) : nat := length (stripAnsi s).

(** Whether the scan of [s] ends inside an escape sequence. *)
Fixpoint endsInEscape (inEscape : bool) (s : list ascii) : bool :=
  match s with
  | [] => inEscape
  | c :: s' =>
      if inEscape then
        if Ascii.eqb c "m" then endsInEscape false s' else endsInEscape true s'
      else if Ascii.eqb c ESC then endsInEscape true s'
      else endsInEscape false s'
  end.

(** The width of the side panel in [render], for a terminal of [termCols]
    columns. *)
Definition panelWidth (cols termCols : Z) : Z :=
  let gridVisibleWidth := cols * CELL_W + 2 in
  if 0 <? termCols then
    let avail := termCols - gridVisibleWidth - 2 in
    if avail <=? 0 then 0 else Z.min DEFAULT_PANEL_W avail
  else DEFAULT_PANEL_W.

(** The lines of the side panel before any is set, and the lambda [setUi]. *)
Definition initialUi (rows panelW : Z) : list (list ascii) :=
  replicate (Z.to_nat rows) (spaces (Z.to_nat (Z.max 0 panelW))).

Definition setUi (rows panelW : Z) (ui : list (list ascii)) (row : Z)
    (s : list ascii) : list (list ascii) :=
  if panelW <=? 0 then ui
  else if (row <? 0) || (rows <=? row) then ui
  else
    let vis := visibleLen s in
    if (Z.to_nat panelW <=? vis)%nat then
      let stripped := stripAnsi s in
      <[Z.to_nat row := take (Z.to_nat panelW) stripped]> ui
    else
      <[Z.to_nat row := s ++ spaces (Z.to_nat panelW - vis)]> ui.

(** The lambda [fmt] of the stacked panel, for the inner width [innerW]. *)
Definition fmt (innerW : Z) (s : list ascii) : list ascii :=
  let clean := stripAnsi s in
  let clean := if innerW <? Z.of_nat (length clean)
               then take (Z.to_nat innerW) clean else clean in
  clean ++ spaces (Z.to_nat (innerW - Z.of_nat (length clean))).

(** ** The stacked panel of [tetrois.cpp]

    The lambda [line]: the text [mvwaddnstr] is given, of which it writes at
    most [contentW] characters. *)
Definition line (contentW : Z) (content : list ascii) : list ascii :=
  let c := content in
  let c := if contentW <? Z.of_nat (length c)
           then take (Z.to_nat contentW) c else c in
  let c := if Z.of_nat (length c) <? contentW
           then c ++ spaces (Z.to_nat (contentW - Z.of_nat (length c)))
           else c in
  take (Z.to_nat contentW) c.

(** ** The layout of [renderFrame] in [tetrois.cpp]

    A window is what [derwin(stdscr, h, w, y, x)] is asked for. *)
Record Window : Type := mkWindow { winH : Z; winW : Z; winY : Z; winX : Z }.

Record Layout : Type := mkLayout {
  sidePanel : bool;
  viewW : Z;
  viewH : Z;
  originX : Z;
  originY : Z;
  titleX : Z;
  gridWin : Window;
  panelWin : option Window;
  stackedWin : option Window
}.

Definition titleSize : Z := 13.

Definition layout (rows cols termRows termCols : Z) : Layout :=
  let innerW := cols * CELL_W in
  let gridW := innerW + 2 in
  let panelGap := 2 in
  let panelW := 18 in
  let titleH := 1 in
  let gridH := rows + 2 in
  let totalWWithPanel := gridW + panelGap + panelW in
  let sidePanel := totalWWithPanel <=? termCols in
  let stackedW := gridW in
  let stackedLines := 16 in
  let stackedH := 2 + stackedLines in
  let viewW := if sidePanel then totalWWithPanel else gridW in
  let viewH := if sidePanel then titleH + gridH
               else titleH + gridH + stackedH in
  let originX := Z.max 0 (Z.quot (termCols - viewW) 2) in
  let originY := Z.max 0 (Z.quot (termRows - viewH) 2) in
  let titleX := originX + Z.max 0 (Z.quot (viewW - titleSize) 2) in
  let gridX := originX in
  let gridY := originY + titleH in
  mkLayout sidePanel viewW viewH originX originY titleX
    (mkWindow gridH gridW gridY gridX)
    (if sidePanel
     then Some (mkWindow gridH panelW gridY (originX + gridW + panelGap))
     else None)
    (if sidePanel then None
     else Some (mkWindow stackedH stackedW (gridY + gridH) originX)).

(** ** Tables of cells

    A [std::vector<std::vector<T>>]; [m[yy][xx] = v] is [set2]. *)
Definition set2 {A : Type} `{Inhabited A} (m : list (list A)) (yy xx : Z)
    (v : A) : list (list A) :=
  <[Z.to_nat yy := <[Z.to_nat xx := v]> (m !!! Z.to_nat yy)]> m.

Definition get2 {A : Type} `{Inhabited A} (m : list (list A)) (yy xx : Z) : A :=
  (m !!! Z.to_nat yy) !!! Z.to_nat xx.

Definition table {A : Type} (rows cols : Z) (v : A) : list (list A) :=
  replicate (Z.to_nat rows) (replicate (Z.to_nat cols) v).

(** A table of [rows] rows of [cols] cells each. *)
Definition rectangular {A : Type} (rows cols : Z) (m : list (list A)) : Prop :=
  length m = Z.to_nat rows /\ Forall (fun r => length r = Z.to_nat cols) m.

Section Masks.

Context {Tag : Type} {tags : TagOps Tag}.

(** [game.at(p)]. *)
Definition cellAt (g : @Tetris Tag) (p : Position) : @Block Tag :=
  grid g !!! Z.to_nat (cellIndex g p).

(** [curMask] and [ghostMask] of [renderFrame]. *)
Definition pieceMask (g : @Tetris Tag) (t : @Tetromino Tag)
  : list (list bool) :=
  fold_left (fun mask b =>
               if isInside g b then set2 mask (y b) (x b) true else mask)
            (blocks t) (table (rows g) (cols g) false).

End Masks.

(** ** The cells [renderFrame] draws *)

Inductive Attr : Type := A_NORMAL | A_BOLD | A_DIM.

Definition BLOCK : string := "[#]".
Definition GHOST : string := " # ".
Definition CLEAN : string := " . ".
Definition PAIR_GHOST : Z := 7.

(** The arguments of a [drawCellW]. *)
Record CellDraw : Type := mkCellDraw {
  cellStr : string;
  cellPair : Z;
  cellAttr : Attr
}.

#[export] Instance CellDraw_inhabited : Inhabited CellDraw :=
  populate (mkCellDraw CLEAN 0 A_NORMAL).

Definition drawnCell (g : @Tetris Z) (current : @Tetromino Z)
    (curMask ghostMask : list (list bool)) (yy xx : Z) : CellDraw :=
  let p := mkPosition xx yy in
  let cell := mkCellDraw CLEAN 0 A_NORMAL in
  let cell := if occupied (cellAt g p)
              then mkCellDraw BLOCK (cellColor (cellAt g p)) A_BOLD
              else cell in
  let cell := if negb (occupied (cellAt g p)) && get2 ghostMask yy xx
              then mkCellDraw GHOST PAIR_GHOST A_DIM
              else cell in
  let cell := if get2 curMask yy xx
              then mkCellDraw BLOCK (colorPair current) A_BOLD
              else cell in
  cell.

(** The cells of the grid window, row by row. *)
Definition renderGrid (fuel : nat) (g : @Tetris Z) (current : @Tetromino Z)
  : Run (list (list CellDraw)) :=
  let curMask := pieceMask g current in
  let* ghost := getGhost fuel g current in
  let ghostMask := pieceMask g ghost in
  Ret (map (fun yy =>
              map (fun xx => drawnCell g current curMask ghostMask yy xx)
                  (seqZ 0 (cols g)))
           (seqZ 0 (rows g))).

(** ** The cells [render] of [tetrois_leagacy.cpp] builds *)

Definition GRAY : string := ansi "1;90m".

Definition coloured (colour glyph : string) : string :=
  String.append colour (String.append glyph RESET).

Definition placedPass (g : @Tetris string) (display : list (list string))
  : list (list string) :=
  fold_left (fun d yy =>
    fold_left (fun d xx =>
                 if occupied (grid g !!! Z.to_nat (yy * cols g + xx))
                 then set2 d yy xx
                        (coloured (cellColor
                           (grid g !!! Z.to_nat (yy * cols g + xx))) BLOCK)
                 else d)
              (seqZ 0 (cols g)) d)
    (seqZ 0 (rows g)) display.

Definition ghostPass (g : @Tetris string) (ghost : @Tetromino string)
    (display : list (list string)) : list (list string) :=
  fold_left (fun d b =>
               if isInside g b
                  && negb (occupied (grid g !!! Z.to_nat (cellIndex g b)))
               then set2 d (y b) (x b) (coloured GRAY GHOST)
               else d)
            (blocks ghost) display.

Definition currentPass (g : @Tetris string) (t : @Tetromino string)
    (display : list (list string)) : list (list string) :=
  fold_left (fun d b =>
               if isInside g b
               then set2 d (y b) (x b) (coloured (colorPair t) BLOCK)
               else d)
            (blocks t) display.

Definition displayCells (fuel : nat) (g : @Tetris string)
    (t : @Tetromino string) : Run (list (list string)) :=
  let display := table (rows g) (cols g) CLEAN in
  let display := placedPass g display in
  let* ghost := getGhost fuel g t in
  let display := ghostPass g ghost display in
  Ret (currentPass g t display).

(** ** Boards, pieces and sessions to run the definitions on *)

Module Examples.

(** A 3 x 2 board of the curses program whose middle row is full:
<<
      . #
      # #
      # .
>> *)
Definition cell (b : bool) : @Block Z := mkBlock (if b then 11 else 0) b.

Definition smallBoard : @Tetris Z :=
  mkTetris 3 2 (map cell [false; true; true; true; true; false]).

(** The T-piece as it spawns. *)
Definition pieceT : @Tetromino Z :=
  mkTetromino [mkPosition 4 0; mkPosition 5 0; mkPosition 6 0; mkPosition 5 1]
              14 4.

(** The O-piece against the left wall, the I-piece lying on the floor. *)
Definition pieceAtWall : @Tetromino Z :=
  mkTetromino [mkPosition 0 0; mkPosition 1 0; mkPosition 0 1; mkPosition 1 1]
              10 0.

Definition pieceOnFloor : @Tetromino Z :=
  mkTetromino [mkPosition 3 19; mkPosition 4 19; mkPosition 5 19;
               mkPosition 6 19] 11 1.

Definition stateWith (g : @Tetris Z) (t : @Tetromino Z) : @GameState Z :=
  mkGameState g t pieceT 0 1 0 0 800 0 false.

Definition emptyBoard : @Tetris Z := newTetris GRID_ROWS GRID_COLS.

Definition startState : @GameState Z := initialState NoFile 0 0 0.

Definition noKey : Event := mkEvent None 0 0 0.
Definition spaceKey : Event := mkEvent (Some chr_space) 0 0 0.
Definition quitKey : Event := mkEvent (Some chr_q) 0 0 0.

(** A session that is quit at once, and a RENDER_ONCE run. *)
Definition quitSession : Session := mkSession NoFile false 0 0 0 [quitKey] 0.

(** The raw-terminal program: the I-piece as it spawns, over a board with
    the cells (3,3) and (4,3) taken. *)
Definition legacyPieceI : @Tetromino string :=
  mkTetromino [mkPosition 3 0; mkPosition 4 0; mkPosition 5 0; mkPosition 6 0]
              (pieceTag 1) 1.

Definition legacyBoard : @Tetris string :=
  lockTetromino (newTetris GRID_ROWS GRID_COLS)
                (mkTetromino [mkPosition 3 3; mkPosition 4 3] (pieceTag 0) 0).

Definition legacyState : @GameState string :=
  mkGameState legacyBoard legacyPieceI legacyPieceI 0 1 0 0 800 0 false.

End Examples.

(** ** More inputs: texts, small boards, sessions that restart *)

Module MoreExamples.

Import Examples.

Definition text (s : string) : list ascii := String.list_ascii_of_string s.

(** "SCORE" in yellow, as [setUi] gets it. *)
Definition yellowScore : list ascii :=
  text (String.append (ansi "1;33m") (String.append "SCORE" RESET)).

(** A 3 x 2 board with one locked cell, bottom left, and a piece of one
    block at the top of that column. *)
Definition ghostBoard : @Tetris Z :=
  mkTetris 3 2 (map cell [false; false; false; false; true; false]).

Definition oneBlock : @Tetromino Z := mkTetromino [mkPosition 0 0] 12 1.

(** A piece with every block outside the board. *)
Definition pieceOutside : @Tetromino Z :=
  mkTetromino [mkPosition (-1) 0; mkPosition 5 (-2)] 12 1.

(** A session quit at once and restarted with the space bar. *)
Definition restartedSession : Session :=
  mkSession NoFile false 0 0 0 [quitKey] chr_space.

End MoreExamples.

(** * Properties *)

Section Properties.

Context {Tag : Type} {tags : TagOps Tag}.

Local Abbreviation Tetromino := (@Tetromino Tag) (only parsing).
Local Abbreviation Block := (@Block Tag) (only parsing).
Local Abbreviation Tetris := (@Tetris Tag) (only parsing).
Local Abbreviation GameState := (@GameState Tag) (only parsing).

(** ** Geometry and pieces *)

Lemma move_move (t : Tetromino) (a b : Position) :
  move (move t a) b = move t (padd a b).
Proof.
  unfold move; simpl. f_equal. rewrite map_map. apply map_ext.
  intros [px py]. unfold padd; simpl. f_equal; lia.
Qed.

Lemma length_move (t : Tetromino) (d : Position) :
  length (blocks (move t d)) = length (blocks t).
Proof. unfold move; simpl. apply length_map. Qed.

Lemma length_rotate (t : Tetromino) :
  length (blocks (rotate t)) = length (blocks t).
Proof.
  unfold rotate. destruct (shapeIdx t =? 0); [done|].
  destruct (blocks t) eqn:E; [by rewrite E|]. simpl. by rewrite length_map.
Qed.

Lemma setTetromino_same (s : GameState) : setTetromino (tetromino s) s = s.
Proof. by destruct s. Qed.

(** ** The board: bounds *)

Lemma isInside_true (g : Tetris) (p : Position) :
  isInside g p = true <-> 0 <= x p < cols g /\ 0 <= y p < rows g.
Proof. unfold isInside. rewrite !andb_true_iff. lia. Qed.

Lemma isInside_false (g : Tetris) (p : Position) :
  isInside g p = false <->
  x p < 0 \/ cols g <= x p \/ y p < 0 \/ rows g <= y p.
Proof.
  rewrite <- not_true_iff_false, isInside_true. lia.
Qed.

Lemma cellIndex_bounds (g : Tetris) (p : Position) :
  wf g -> isInside g p = true ->
  0 <= cellIndex g p /\ (Z.to_nat (cellIndex g p) < length (grid g))%nat.
Proof.
  intros (Hr & Hc & Hlen) Hin. apply isInside_true in Hin.
  unfold cellIndex. rewrite Hlen. split; [nia|].
  apply Z2Nat.inj_lt; nia.
Qed.

Lemma checkCollision_true (g : Tetris) (t : Tetromino) :
  checkCollision g t = true <->
  exists b, b ∈ blocks t /\ isOccupied g b = true.
Proof.
  unfold checkCollision. rewrite existsb_exists.
  by setoid_rewrite <- list_elem_of_In.
Qed.

Lemma checkCollision_false (g : Tetris) (t : Tetromino) :
  checkCollision g t = false <->
  Forall (fun b => isOccupied g b = false) (blocks t).
Proof.
  unfold checkCollision. rewrite <- not_true_iff_false, existsb_exists.
  rewrite Forall_forall. setoid_rewrite <- list_elem_of_In. split.
  - intros H b Hb. destruct (isOccupied g b) eqn:E; [|done].
    exfalso. apply H. eauto.
  - intros H (b & Hb & Hocc). specialize (H b Hb). congruence.
Qed.

(** C7: [isOccupied] is total; outside the board it answers [true] without
    reading the grid, inside it reads a cell that exists and answers its
    [occupied] flag. *)
Theorem isOccupied_walls_and_cells (g : Tetris) (p : Position) :
  wf g ->
  (x p < 0 \/ x p >= cols g \/ y p < 0 \/ y p >= rows g ->
   isInside g p = false /\ isOccupied g p = true) /\
  (0 <= x p < cols g /\ 0 <= y p < rows g ->
   0 <= cellIndex g p < Z.of_nat (length (grid g)) /\
   exists cell, grid g !! Z.to_nat (cellIndex g p) = Some cell /\
                isOccupied g p = occupied cell).
Proof.
  intros Hwf. split.
  - intros Hout. assert (isInside g p = false) as E
      by (apply isInside_false; lia).
    split; [done|]. unfold isOccupied. by rewrite E.
  - intros Hin. apply isInside_true in Hin.
    destruct (cellIndex_bounds g p Hwf Hin) as [H0 Hlt].
    split; [lia|].
    destruct (lookup_lt_is_Some_2 (grid g) _ Hlt) as [cell Hcell].
    exists cell. split; [done|]. unfold isOccupied. rewrite Hin. simpl.
    by rewrite (list_lookup_total_correct _ _ _ Hcell).
Qed.

(** C2: [rotate] leaves the O-piece as it is; any other piece is turned
    about its first block, the offset [(rx, ry)] of a block from that pivot
    becoming [(-ry, rx)]. *)
Theorem rotate_about_first_block (t : Tetromino) :
  (shapeIdx t = 0 -> rotate t = t) /\
  (shapeIdx t <> 0 -> forall pivot rest, blocks t = pivot :: rest ->
     colorPair (rotate t) = colorPair t /\
     shapeIdx (rotate t) = shapeIdx t /\
     length (blocks (rotate t)) = length (blocks t) /\
     forall i b, blocks t !! i = Some b ->
       let rx := x (psub b pivot) in
       let ry := y (psub b pivot) in
       blocks (rotate t) !! i = Some (padd pivot (mkPosition (- ry) rx)) /\
       blocks (rotate t) !! i =
         Some (mkPosition (x pivot - (y b - y pivot))
                          (y pivot + (x b - x pivot)))).
Proof.
  split.
  - intros H0. unfold rotate. by rewrite H0.
  - intros Hne pivot rest Hb.
    assert (rotate t = mkTetromino (rotateBlock pivot <$> blocks t)
                                   (colorPair t) (shapeIdx t)) as E.
    { unfold rotate. destruct (Z.eqb_spec (shapeIdx t) 0) as [|_]; [done|].
      by rewrite Hb. }
    rewrite E. simpl. repeat split; [by rewrite length_fmap|..];
      rewrite list_lookup_fmap, H; simpl; unfold rotateBlock, padd, psub;
      simpl; do 2 f_equal; lia.
Qed.

(** ** [clearLines] *)

Lemma linesToClear_filter (g : Tetris) : linesToClear g = fullRows g.
Proof.
  unfold linesToClear, fullRows.
  assert (forall l acc,
    fold_left (fun acc yy => if rowFull g yy then acc ++ [yy] else acc) l acc
    = acc ++ List.filter (rowFull g) l) as H.
  { induction l as [|a l IH]; intros acc; simpl.
    - by rewrite app_nil_r.
    - rewrite IH. destruct (rowFull g a); [|done].
      by rewrite <- app_assoc. }
  by rewrite H.
Qed.

Lemma elem_of_fullRows (g : Tetris) (yy : Z) :
  yy ∈ fullRows g <-> 0 <= yy < rows g /\ rowFull g yy = true.
Proof.
  unfold fullRows. rewrite list_elem_of_In, filter_In, <- list_elem_of_In.
  rewrite elem_of_seqZ. intuition lia.
Qed.

Lemma isCleared_fullRows (g : Tetris) (yy : Z) :
  0 <= yy < rows g -> isCleared (fullRows g) yy = rowFull g yy.
Proof.
  intros Hy. unfold isCleared. apply eq_true_iff_eq.
  rewrite existsb_exists. split.
  - intros (cy & Hin & Heq). apply Z.eqb_eq in Heq. subst cy.
    apply list_elem_of_In, elem_of_fullRows in Hin. tauto.
  - intros Hf. exists yy. split; [|apply Z.eqb_refl].
    apply list_elem_of_In, elem_of_fullRows. tauto.
Qed.

Lemma seqZ_increasing (m : Z) (n : nat) :
  StronglySorted Z.lt (seqZ m (Z.of_nat n)).
Proof.
  revert m. induction n as [|n IH]; intros m.
  - rewrite seqZ_nil by lia. constructor.
  - rewrite seqZ_cons by lia.
    replace (Z.pred (Z.of_nat (S n))) with (Z.of_nat n) by lia.
    constructor; [apply IH|].
    rewrite Forall_forall. intros k Hk.
    rewrite <- list_elem_of_In, elem_of_seqZ in Hk. lia.
Qed.

Lemma filter_increasing (P : Z -> bool) (l : list Z) :
  StronglySorted Z.lt l -> StronglySorted Z.lt (List.filter P l).
Proof.
  induction 1 as [|a l Hl IH Ha]; simpl; [constructor|].
  destruct (P a); [|done]. constructor; [done|].
  rewrite Forall_forall in *. intros k Hk. apply filter_In in Hk.
  apply Ha. tauto.
Qed.

Lemma keptRows_increasing (g : Tetris) : StronglySorted Z.lt (keptRows g).
Proof.
  unfold keptRows. apply filter_increasing.
  destruct (Z.le_gt_cases 0 (rows g)) as [Hr|Hr].
  - rewrite <- (Z2Nat.id (rows g)) by done. apply seqZ_increasing.
  - rewrite seqZ_nil by lia. constructor.
Qed.

Lemma length_fullRows_keptRows (g : Tetris) :
  (length (fullRows g) + length (keptRows g) = Z.to_nat (rows g))%nat.
Proof.
  unfold fullRows, keptRows. by rewrite filter_length, length_seqZ.
Qed.

Lemma length_rowCells (g : Tetris) (yy : Z) :
  wf g -> 0 <= yy < rows g -> length (rowCells g yy) = Z.to_nat (cols g).
Proof.
  intros (Hr & Hc & Hlen) Hy. unfold rowCells.
  rewrite length_take, length_drop, Hlen.
  assert (Z.to_nat (yy * cols g) + Z.to_nat (cols g)
          <= Z.to_nat (rows g * cols g))%nat; [|lia].
  rewrite <- Z2Nat.inj_add by nia. apply Z2Nat.inj_le; nia.
Qed.

Lemma lookup_rowCells (g : Tetris) (yy : Z) (i : nat) :
  0 <= yy -> 0 <= cols g -> (i < Z.to_nat (cols g))%nat ->
  rowCells g yy !! i = grid g !! Z.to_nat (yy * cols g + Z.of_nat i).
Proof.
  intros Hy Hc Hi. unfold rowCells.
  rewrite lookup_take_lt by done. rewrite lookup_drop. f_equal.
  assert (0 <= yy * cols g) by nia. lia.
Qed.

(** The inner loop of the rebuild writes row [yy] over row [targetY]. *)
Lemma copyRow_columns (g : Tetris) (targetY yy : Z)
    (pre mid post : list Block) (j : nat) :
  wf g -> 0 <= yy < rows g -> 0 <= targetY ->
  length pre = Z.to_nat (targetY * cols g) ->
  length mid = Z.to_nat (cols g) ->
  (j <= Z.to_nat (cols g))%nat ->
  fold_left (fun ng xx =>
               <[Z.to_nat (targetY * cols g + xx) :=
                   grid g !!! Z.to_nat (yy * cols g + xx)]> ng)
            (seqZ 0 (Z.of_nat j)) (pre ++ mid ++ post)
  = pre ++ take j (rowCells g yy) ++ drop j mid ++ post.
Proof.
  intros Hwf Hy Ht Hpre Hmid. induction j as [|j IH]; intros Hj.
  - simpl. by rewrite drop_0.
  - rewrite seqZ_S, fold_left_app, IH by lia. simpl.
    pose proof Hwf as (Hr & Hc & Hlen).
    assert (Z.to_nat (targetY * cols g + (0 + Z.of_nat j))
            = (length pre + j)%nat) as ->.
    { rewrite Hpre. assert (0 <= targetY * cols g) by nia. lia. }
    rewrite insert_app_r.
    assert (length (take j (rowCells g yy)) = j) as Hlt.
    { rewrite length_take, length_rowCells by done. lia. }
    rewrite <- (Nat.add_0_r j) at 1. rewrite <- Hlt at 1.
    rewrite insert_app_r.
    assert (is_Some (mid !! j)) as [m Hm]
      by (apply lookup_lt_is_Some_2; lia).
    rewrite (drop_S _ _ _ Hm). simpl.
    assert (is_Some (rowCells g yy !! j)) as [v Hv]
      by (apply lookup_lt_is_Some_2; rewrite length_rowCells by done; lia).
    rewrite (take_S_r _ _ _ Hv). rewrite <- !app_assoc. simpl.
    do 3 f_equal.
    rewrite lookup_rowCells in Hv by lia.
    rewrite Z.add_0_l. by apply list_lookup_total_correct.
Qed.

Lemma copyRow_row (g : Tetris) (targetY yy : Z) (pre mid post : list Block) :
  wf g -> 0 <= yy < rows g -> 0 <= targetY ->
  length pre = Z.to_nat (targetY * cols g) ->
  length mid = Z.to_nat (cols g) ->
  copyRow g targetY yy (pre ++ mid ++ post) = pre ++ rowCells g yy ++ post.
Proof.
  intros Hwf Hy Ht Hpre Hmid. unfold copyRow.
  pose proof Hwf as (Hr & Hc & Hlen).
  replace (seqZ 0 (cols g)) with (seqZ 0 (Z.of_nat (Z.to_nat (cols g))))
    by (by rewrite Z2Nat.id).
  rewrite (copyRow_columns g targetY yy pre mid post) by (done || lia).
  rewrite take_ge by (rewrite length_rowCells by done; lia).
  by rewrite drop_ge by lia.
Qed.

(** The outer loop, from the bottom row up: after the rows [m .. rows-1]
    the kept ones among them lie at the bottom of the new grid, in order,
    under empty cells. *)
Lemma rebuild_suffix (g : Tetris) (n : nat) (m : Z) :
  wf g -> 0 <= m -> m + Z.of_nat n = rows g ->
  let kept := List.filter (fun yy => negb (rowFull g yy)) (seqZ m (Z.of_nat n)) in
  foldr (fun yy st => rebuildStep g (fullRows g) st yy)
        (replicate (Z.to_nat (rows g * cols g)) emptyBlock, rows g - 1)
        (seqZ m (Z.of_nat n))
  = (replicate ((Z.to_nat (rows g) - length kept) * Z.to_nat (cols g)) emptyBlock
       ++ concat (map (rowCells g) kept),
     rows g - 1 - Z.of_nat (length kept)).
Proof.
  intros Hwf. pose proof Hwf as (Hr & Hc & Hlen).
  revert m. induction n as [|n IH]; intros m Hm Hmn kept.
  - subst kept. simpl. rewrite app_nil_r. f_equal; [|lia].
    f_equal. rewrite Z2Nat.inj_mul by done. lia.
  - subst kept. rewrite seqZ_cons by lia.
    replace (Z.pred (Z.of_nat (S n))) with (Z.of_nat n) by lia.
    cbn [foldr List.filter].
    rewrite IH by lia. clear IH.
    set (kept := List.filter (fun yy => negb (rowFull g yy))
                             (seqZ (Z.succ m) (Z.of_nat n))).
    assert (length kept <= n)%nat as Hk.
    { subst kept. etrans; [apply filter_length_le|].
      rewrite length_seqZ. lia. }
    unfold rebuildStep. rewrite isCleared_fullRows by lia.
    destruct (rowFull g m); simpl; [done|].
    f_equal; [|lia].
    replace ((Z.to_nat (rows g) - length kept) * Z.to_nat (cols g))%nat
      with ((Z.to_nat (rows g) - S (length kept)) * Z.to_nat (cols g)
            + Z.to_nat (cols g))%nat by nia.
    rewrite replicate_add, <- !app_assoc.
    rewrite copyRow_row; try done; try lia.
    + rewrite length_replicate. rewrite Z2Nat.inj_mul by lia. f_equal. lia.
    + by rewrite length_replicate.
Qed.

Lemma rebuild_grid (g : Tetris) :
  wf g ->
  fst (rebuild g (fullRows g))
  = replicate (length (fullRows g) * Z.to_nat (cols g)) emptyBlock
      ++ concat (map (rowCells g) (keptRows g)).
Proof.
  intros Hwf. pose proof Hwf as (Hr & Hc & Hlen). unfold rebuild.
  rewrite <- fold_left_rev_right, rev_involutive.
  pose proof (rebuild_suffix g (Z.to_nat (rows g)) 0 Hwf
                ltac:(lia) ltac:(lia)) as H.
  rewrite Z2Nat.id in H by done. simpl in H. rewrite H. simpl.
  fold (keptRows g). do 2 f_equal.
  pose proof (length_fullRows_keptRows g). f_equal. lia.
Qed.

Lemma rowFull_rowCells (g : Tetris) (yy : Z) :
  wf g -> 0 <= yy < rows g ->
  rowFull g yy = forallb occupied (rowCells g yy).
Proof.
  intros Hwf Hy. pose proof Hwf as (Hr & Hc & Hlen).
  apply eq_true_iff_eq. unfold rowFull. rewrite !forallb_forall. split.
  - intros H b Hb. apply list_elem_of_In, list_elem_of_lookup in Hb.
    destruct Hb as [i Hi].
    assert (i < Z.to_nat (cols g))%nat as Hlt.
    { apply lookup_lt_Some in Hi. by rewrite length_rowCells in Hi. }
    rewrite lookup_rowCells in Hi by lia.
    specialize (H (Z.of_nat i)).
    rewrite (list_lookup_total_correct _ _ _ Hi) in H. apply H.
    apply list_elem_of_In, elem_of_seqZ. lia.
  - intros H xx Hxx. apply list_elem_of_In, elem_of_seqZ in Hxx.
    assert (is_Some (rowCells g yy !! Z.to_nat xx)) as [v Hv].
    { apply lookup_lt_is_Some_2. rewrite length_rowCells by done. lia. }
    pose proof Hv as Hv'. rewrite lookup_rowCells in Hv' by lia.
    rewrite Z2Nat.id in Hv' by lia.
    rewrite (list_lookup_total_correct _ _ _ Hv').
    apply H, list_elem_of_In, list_elem_of_lookup. eauto.
Qed.

Lemma rowFull_true (g : Tetris) (yy : Z) :
  0 <= yy < rows g ->
  rowFull g yy = true <->
  forall xx, 0 <= xx < cols g -> isOccupied g (mkPosition xx yy) = true.
Proof.
  intros Hy. unfold rowFull. rewrite forallb_forall.
  setoid_rewrite <- list_elem_of_In. setoid_rewrite elem_of_seqZ.
  split; intros H xx Hxx.
  - unfold isOccupied.
    assert (isInside g (mkPosition xx yy) = true) as ->
      by (apply isInside_true; simpl; lia).
    simpl. unfold cellIndex; simpl. apply H. lia.
  - assert (0 <= xx < cols g) as Hx by lia. specialize (H xx Hx).
    unfold isOccupied in H.
    assert (isInside g (mkPosition xx yy) = true) as E
      by (apply isInside_true; simpl; lia).
    by rewrite E in H.
Qed.

Lemma concat_row (rs : list (list Block)) (C j : nat) (row : list Block) :
  Forall (fun r => length r = C) rs -> rs !! j = Some row ->
  take C (drop (j * C) (concat rs)) = row.
Proof.
  intros Hall. revert j. induction Hall as [|r rs Hr Hall IH]; intros j Hj.
  - done.
  - destruct j as [|j]; simpl in *.
    + inversion Hj; subst. by apply take_app_length'.
    + rewrite drop_app_add' by done. by apply IH.
Qed.

Lemma replicate_rows (n C : nat) (b : Block) :
  replicate (n * C) b = concat (replicate n (replicate C b)).
Proof.
  induction n as [|n IH]; simpl; [done|].
  by rewrite replicate_add, IH.
Qed.

Lemma length_concat_rows (rs : list (list Block)) (C : nat) :
  Forall (fun r => length r = C) rs ->
  length (concat rs) = (length rs * C)%nat.
Proof.
  induction 1 as [|r rs Hr Hall IH]; simpl; [done|].
  rewrite length_app, IH. lia.
Qed.

(** The rows of the rebuilt grid, top to bottom. *)
Lemma rebuilt_rows_length (g : Tetris) :
  wf g ->
  Forall (fun r => length r = Z.to_nat (cols g))
         (replicate (length (fullRows g)) (emptyRow g)
            ++ map (rowCells g) (keptRows g)).
Proof.
  intros Hwf. apply Forall_app. split.
  - apply Forall_replicate. apply length_replicate.
  - apply Forall_forall. intros r Hr.
    apply in_map_iff in Hr.
    destruct Hr as (yy & <- & Hyy).
    apply filter_In in Hyy. destruct Hyy as [Hyy _].
    rewrite <- list_elem_of_In, elem_of_seqZ in Hyy.
    apply length_rowCells; [done|lia].
Qed.

Lemma clearLines_some (g : Tetris) :
  fullRows g <> [] ->
  clearLines g =
    (mkTetris (rows g) (cols g) (fst (rebuild g (fullRows g))),
     Z.of_nat (length (fullRows g))).
Proof.
  intros Hne. unfold clearLines. rewrite linesToClear_filter.
  by destruct (fullRows g).
Qed.

Lemma clearLines_none (g : Tetris) :
  fullRows g = [] -> clearLines g = (g, 0).
Proof.
  intros E. unfold clearLines. by rewrite linesToClear_filter, E.
Qed.

Lemma clearLines_grid (g : Tetris) :
  wf g -> fullRows g <> [] ->
  grid (fst (clearLines g)) =
    concat (replicate (length (fullRows g)) (emptyRow g)
              ++ map (rowCells g) (keptRows g)).
Proof.
  intros Hwf Hne. rewrite clearLines_some by done. simpl.
  rewrite rebuild_grid by done.
  unfold emptyRow. by rewrite concat_app, <- replicate_rows.
Qed.

Lemma clearLines_dims (g : Tetris) :
  rows (fst (clearLines g)) = rows g /\ cols (fst (clearLines g)) = cols g.
Proof.
  unfold clearLines. by destruct (linesToClear g).
Qed.

Lemma clearLines_rowCells (g : Tetris) (j : nat) (row : list Block) :
  wf g -> fullRows g <> [] ->
  (replicate (length (fullRows g)) (emptyRow g)
     ++ map (rowCells g) (keptRows g)) !! j = Some row ->
  rowCells (fst (clearLines g)) (Z.of_nat j) = row.
Proof.
  intros Hwf Hne Hj. pose proof Hwf as (Hr & Hc & Hlen).
  unfold rowCells. destruct (clearLines_dims g) as [_ ->].
  rewrite clearLines_grid by done.
  replace (Z.to_nat (Z.of_nat j * cols g)) with (j * Z.to_nat (cols g))%nat
    by nia.
  eapply concat_row; [|done]. by apply rebuilt_rows_length.
Qed.

Lemma clearLines_wf (g : Tetris) : wf g -> wf (fst (clearLines g)).
Proof.
  intros Hwf. pose proof Hwf as (Hr & Hc & Hlen).
  destruct (decide (fullRows g = [])) as [E|Hne].
  - by rewrite clearLines_none.
  - unfold wf. destruct (clearLines_dims g) as [-> ->].
    split; [done|]. split; [done|].
    rewrite clearLines_some by done. simpl.
    rewrite rebuild_grid by done.
    rewrite length_app, length_replicate.
    rewrite (length_concat_rows (map (rowCells g) (keptRows g))
                                (Z.to_nat (cols g))).
    + rewrite length_map. pose proof (length_fullRows_keptRows g). nia.
    + pose proof (rebuilt_rows_length g Hwf) as H.
      apply Forall_app in H. tauto.
Qed.

(** C1: [clearLines] returns the number of full rows, a row being full
    when each of its columns is occupied.  With no full row it returns 0 and
    the board as it was.  Otherwise the new grid is, top to bottom, one empty
    row per full row, then the rows that were not full, bottom-aligned and in
    their order ([keptRows] lists them by increasing row). *)
Theorem clearLines_gravity_compaction (g : Tetris) :
  wf g ->
  let g' := fst (clearLines g) in
  let n := length (fullRows g) in
  (forall yy, yy ∈ fullRows g <->
     0 <= yy < rows g /\
     forall xx, 0 <= xx < cols g -> isOccupied g (mkPosition xx yy) = true) /\
  (forall yy, yy ∈ keptRows g <-> 0 <= yy < rows g /\ yy ∉ fullRows g) /\
  StronglySorted Z.lt (keptRows g) /\
  snd (clearLines g) = Z.of_nat n /\
  (n = 0%nat -> clearLines g = (g, 0)) /\
  rows g' = rows g /\ cols g' = cols g /\
  ((0 < n)%nat ->
     grid g' = concat (replicate n (emptyRow g)
                         ++ map (rowCells g) (keptRows g)) /\
     (forall j, (j < n)%nat -> rowCells g' (Z.of_nat j) = emptyRow g) /\
     (forall i yy, keptRows g !! i = Some yy ->
        rowCells g' (Z.of_nat (n + i)) = rowCells g yy)).
Proof.
  intros Hwf g' n. subst g' n.
  split.
  { intros yy. rewrite elem_of_fullRows. split.
    - intros [Hy Hf]. split; [done|]. by apply rowFull_true.
    - intros [Hy Hf]. split; [done|]. by apply rowFull_true. }
  split.
  { intros yy. rewrite elem_of_fullRows. unfold keptRows.
    rewrite list_elem_of_In, filter_In, <- list_elem_of_In, elem_of_seqZ.
    destruct (rowFull g yy); simpl; intuition (try lia; try done). }
  split; [apply keptRows_increasing|].
  destruct (clearLines_dims g) as [Hrows Hcols].
  destruct (decide (fullRows g = [])) as [E|Hne].
  - rewrite clearLines_none by done. rewrite E. simpl.
    do 4 (split; [done|]). intros H. lia.
  - split; [by rewrite clearLines_some|].
    split; [intros E; by destruct (fullRows g)|].
    split; [done|]. split; [done|]. intros _.
    split; [by apply clearLines_grid|]. split.
    + intros j Hj. apply clearLines_rowCells; try done.
      rewrite lookup_app_l by (by rewrite length_replicate).
      by apply lookup_replicate_2.
    + intros i yy Hi. apply clearLines_rowCells; try done.
      rewrite lookup_app_r by (rewrite length_replicate; lia).
      rewrite length_replicate.
      replace (length (fullRows g) + i - length (fullRows g))%nat with i
        by lia.
      change (map (rowCells g) (keptRows g))
        with (rowCells g <$> keptRows g).
      by rewrite list_lookup_fmap, Hi.
Qed.

(** ** The class invariant *)

Lemma newTetris_wf (r c : Z) : 0 <= r -> 0 <= c -> wf (newTetris r c).
Proof.
  intros Hr Hc. unfold wf, newTetris; simpl.
  by rewrite length_replicate.
Qed.

(** ** [lockTetromino] *)

Lemma length_lock_fold (g : Tetris) (c : Tag) (bs : list Position)
    (cells : list Block) :
  length (fold_left (lockCell g c) bs cells) = length cells.
Proof.
  revert cells. induction bs as [|b bs IH]; intros cells; simpl; [done|].
  rewrite IH. unfold lockCell. destruct (isInside g b); simpl; [|done].
  apply length_insert.
Qed.

Lemma lockTetromino_wf (g : Tetris) (t : Tetromino) :
  wf g -> wf (lockTetromino g t).
Proof.
  intros (Hr & Hc & Hlen). unfold wf, lockTetromino; simpl.
  by rewrite length_lock_fold.
Qed.

(** A cell no block of the piece lies on is not touched. *)
Lemma lock_fold_other (g : Tetris) (c : Tag) (bs : list Position)
    (cells : list Block) (i : nat) :
  Forall (fun b => isInside g b = true -> Z.to_nat (cellIndex g b) <> i) bs ->
  fold_left (lockCell g c) bs cells !! i = cells !! i.
Proof.
  intros Hall. revert cells.
  induction Hall as [|b bs Hb Hall IH]; intros cells; simpl; [done|].
  rewrite IH. unfold lockCell.
  destruct (isInside g b) eqn:E; simpl; [|done].
  apply list_lookup_insert_ne. by apply Hb.
Qed.

(** A row that locking makes full holds a block of the piece. *)
Lemma lock_fills_row (g : Tetris) (t : Tetromino) (yy : Z) :
  wf g -> 0 <= yy < rows g ->
  rowFull (lockTetromino g t) yy = true -> rowFull g yy = false ->
  Exists (fun b => y b = yy) (blocks t).
Proof.
  intros Hwf Hy Hfull Hnot. pose proof Hwf as (Hr & Hc & Hlen).
  destruct (decide (Exists (fun b => y b = yy) (blocks t))) as [|Hno];
    [done|exfalso].
  apply not_Exists_Forall in Hno; [|intros b; apply _].
  assert (rowFull (lockTetromino g t) yy = rowFull g yy) as E;
    [|congruence].
  assert (forall xx, In xx (seqZ 0 (cols g)) ->
    occupied (grid (lockTetromino g t) !!! Z.to_nat (yy * cols g + xx))
    = occupied (grid g !!! Z.to_nat (yy * cols g + xx))) as Hpt.
  { intros xx Hxx.
    rewrite <- list_elem_of_In, elem_of_seqZ in Hxx. simpl.
    rewrite !list_lookup_total_alt. do 2 f_equal.
    apply lock_fold_other.
    eapply Forall_impl; [|apply Hno]. simpl. intros b Hyb Hin.
    apply isInside_true in Hin. unfold cellIndex.
    intros Heq. apply Z2Nat.inj in Heq; nia. }
  unfold rowFull. apply eq_true_iff_eq. rewrite !forallb_forall.
  split; intros H xx Hxx.
  - rewrite <- Hpt by exact Hxx. apply H, Hxx.
  - change (occupied (grid (lockTetromino g t)
                        !!! Z.to_nat (yy * cols g + xx)) = true).
    rewrite Hpt by exact Hxx. apply H, Hxx.
Qed.

(** On a board without full rows, locking a piece fills at most as many
    rows as the piece has blocks. *)
Lemma lock_full_rows_bound (g : Tetris) (t : Tetromino) :
  wf g -> fullRows g = [] ->
  (length (fullRows (lockTetromino g t)) <= length (blocks t))%nat.
Proof.
  intros Hwf Hnone.
  rewrite <- (length_map y (blocks t)).
  apply NoDup_incl_length.
  - unfold fullRows. apply NoDup_filter, NoDup_ListNoDup, NoDup_seqZ.
  - intros yy Hyy. rewrite <- list_elem_of_In in Hyy.
    apply elem_of_fullRows in Hyy. destruct Hyy as [Hy Hfull].
    simpl in Hy.
    assert (rowFull g yy = false) as Hnot.
    { destruct (rowFull g yy) eqn:E; [|done].
      assert (yy ∈ fullRows g) as Hin by (by apply elem_of_fullRows).
      rewrite Hnone in Hin. by apply elem_of_nil in Hin. }
    pose proof (lock_fills_row g t yy Hwf Hy Hfull Hnot) as Hex.
    apply Exists_exists in Hex. destruct Hex as (b & Hb & Hyb).
    apply in_map_iff. exists b. tauto.
Qed.

(** After [clearLines] no row is full, on a board with a column. *)
Lemma clearLines_no_full_rows (g : Tetris) :
  wf g -> 0 < cols g -> fullRows (fst (clearLines g)) = [].
Proof.
  intros Hwf Hpos. pose proof Hwf as (Hr & Hc & Hlen).
  destruct (decide (fullRows g = [])) as [E|Hne].
  { by rewrite clearLines_none. }
  pose proof (clearLines_wf g Hwf) as Hwf'.
  destruct (clearLines_dims g) as [Hrows Hcols].
  destruct (fullRows (fst (clearLines g))) as [|yy l] eqn:E; [done|exfalso].
  assert (yy ∈ fullRows (fst (clearLines g))) as Hin
    by (rewrite E; left).
  apply elem_of_fullRows in Hin. destruct Hin as [Hy Hfull].
  rewrite rowFull_rowCells in Hfull by done.
  rewrite Hrows in Hy.
  set (rs := replicate (length (fullRows g)) (emptyRow g)
               ++ map (rowCells g) (keptRows g)).
  assert (is_Some (rs !! Z.to_nat yy)) as [row Hrow].
  { apply lookup_lt_is_Some_2. subst rs.
    rewrite length_app, length_replicate, length_map.
    pose proof (length_fullRows_keptRows g). lia. }
  pose proof (clearLines_rowCells g (Z.to_nat yy) row Hwf Hne Hrow) as Hcells.
  rewrite Z2Nat.id in Hcells by lia. rewrite Hcells in Hfull.
  subst rs. apply lookup_app_Some in Hrow.
  destruct Hrow as [Hrow|[_ Hrow]].
  - apply lookup_replicate in Hrow. destruct Hrow as [-> _].
    unfold emptyRow in Hfull.
    destruct (Z.to_nat (cols g)) as [|k] eqn:Ek; [lia|]. done.
  - change (map (rowCells g) (keptRows g))
      with (rowCells g <$> keptRows g) in Hrow.
    apply list_lookup_fmap_Some in Hrow. destruct Hrow as (y0 & -> & Hy0).
    apply list_elem_of_lookup_2 in Hy0. unfold keptRows in Hy0.
    rewrite list_elem_of_In, filter_In, <- list_elem_of_In, elem_of_seqZ in Hy0.
    destruct Hy0 as [Hy0 Hnf].
    rewrite rowFull_rowCells in Hnf by (done || lia).
    rewrite Hfull in Hnf. done.
Qed.

Lemma clearLines_count (g : Tetris) :
  snd (clearLines g) = Z.of_nat (length (fullRows g)).
Proof.
  destruct (decide (fullRows g = [])) as [E|Hne].
  - rewrite clearLines_none by done. by rewrite E.
  - by rewrite clearLines_some.
Qed.

(** The board after a lock and the clear that follows it. *)
Lemma lock_then_clear (g : Tetris) (t : Tetromino) :
  wf g -> 0 < cols g -> fullRows g = [] ->
  let g' := fst (clearLines (lockTetromino g t)) in
  let cleared := snd (clearLines (lockTetromino g t)) in
  wf g' /\ rows g' = rows g /\ cols g' = cols g /\ fullRows g' = [] /\
  0 <= cleared <= Z.of_nat (length (blocks t)).
Proof.
  intros Hwf Hc Hnone g' cleared. subst g' cleared.
  pose proof (lockTetromino_wf g t Hwf) as Hwf1.
  destruct (clearLines_dims (lockTetromino g t)) as [Hrows Hcols].
  split; [by apply clearLines_wf|].
  split; [done|]. split; [done|].
  split; [by apply clearLines_no_full_rows|].
  rewrite clearLines_count.
  pose proof (lock_full_rows_bound g t Hwf Hnone). lia.
Qed.

(** ** Input dispatch *)

Lemma tryRotate_candidates (g : Tetris) (t : Tetromino) :
  tryRotate g t = firstFree g (candidates Curses t) t.
Proof.
  unfold tryRotate, firstFree, candidates, lastKick, VEC_RIGHT, VEC_LEFT.
  simpl. rewrite move_move. unfold padd; simpl.
  repeat (destruct (checkCollision _ _); simpl; try done).
Qed.

Lemma tryRotateLegacy_candidates (g : Tetris) (t : Tetromino) :
  tryRotateLegacy g t = firstFree g (candidates Legacy t) t.
Proof.
  unfold tryRotateLegacy, firstFree, candidates, lastKick, VEC_RIGHT, VEC_LEFT.
  simpl. rewrite !move_move. unfold padd; simpl.
  repeat (destruct (checkCollision _ _); simpl; try done).
Qed.

(** C3, as the programs have it: the rotation key commits the first free
    candidate among the rotated piece, the rotated piece one cell right, and
    the rotated piece two cells left of the rotated position in
    [tetrois.cpp], one cell left of it in [tetrois_leagacy.cpp]; when all
    three collide the piece stays, and the board is never touched. *)
Theorem rotate_key_first_free_candidate
    (prog : Program) (fuel : nat) (ev : Event) (s : GameState) :
  handleInput prog fuel ev RotateKey s =
    Ret (setTetromino (firstFree (game s) (candidates prog (tetromino s))
                                 (tetromino s)) s) /\
  candidates Curses (tetromino s) = statedCandidates (tetromino s) /\
  candidates Legacy (tetromino s) =
    [rotate (tetromino s);
     move (rotate (tetromino s)) (mkPosition 1 0);
     move (rotate (tetromino s)) (mkPosition (-1) 0)] /\
  (Forall (fun c => checkCollision (game s) c = true)
          (candidates prog (tetromino s)) ->
   handleInput prog fuel ev RotateKey s = Ret s).
Proof.
  assert (handleInput prog fuel ev RotateKey s =
    Ret (setTetromino (firstFree (game s) (candidates prog (tetromino s))
                                 (tetromino s)) s)) as E.
  { simpl. destruct prog;
      by rewrite ?tryRotate_candidates, ?tryRotateLegacy_candidates. }
  repeat split; try done.
  intros Hall. rewrite E. unfold firstFree, candidates in *.
  inversion Hall as [|? ? H1 Hall1]; subst.
  inversion Hall1 as [|? ? H2 Hall2]; subst.
  inversion Hall2 as [|? ? H3 _]; subst.
  simpl. rewrite H1, H2, H3. simpl. by rewrite setTetromino_same.
Qed.

(** C6: a left, right or down key whose moved copy collides, that is, has a
    block outside the board or on an occupied cell, returns the state as it
    was: same blocks, same board, and a result, not a failure. *)
Theorem rejected_move_changes_nothing
    (prog : Program) (fuel : nat) (ev : Event) (s : GameState)
    (i : Input) (direction : Position) :
  (i = MoveLeft /\ direction = VEC_LEFT) \/
  (i = MoveRight /\ direction = VEC_RIGHT) \/
  (i = SoftDrop /\ direction = VEC_DOWN) ->
  (exists b, b ∈ blocks (move (tetromino s) direction) /\
     (isInside (game s) b = false \/
      occupied (grid (game s) !!! Z.to_nat (cellIndex (game s) b)) = true)) ->
  checkCollision (game s) (move (tetromino s) direction) = true /\
  handleInput prog fuel ev i s = Ret s /\
  forall s', handleInput prog fuel ev i s = Ret s' ->
    blocks (tetromino s') = blocks (tetromino s) /\ game s' = game s.
Proof.
  intros Hi (b & Hb & Hbad).
  assert (checkCollision (game s) (move (tetromino s) direction) = true) as Hc.
  { apply checkCollision_true. exists b. split; [done|].
    unfold isOccupied. destruct (isInside (game s) b); simpl; [|done].
    by destruct Hbad. }
  assert (handleInput prog fuel ev i s = Ret s) as E.
  { destruct Hi as [[-> ->]|[[-> ->]|[-> ->]]]; simpl; unfold tryMove;
      rewrite Hc; simpl; by rewrite setTetromino_same. }
  split; [done|]. split; [done|].
  intros s' E'. rewrite E in E'. by inversion E'.
Qed.

(** ** The hard drop and the ghost *)

Lemma move_zero (t : Tetromino) : move t (mkPosition 0 0) = t.
Proof.
  destruct t as [bs c i]. unfold move; simpl. f_equal.
  rewrite <- (map_id bs) at 2. apply map_ext.
  intros [px py]. unfold padd; simpl. f_equal; lia.
Qed.

Lemma move_down_up (t : Tetromino) :
  move (move t VEC_DOWN) (mkPosition 0 (-1)) = t.
Proof. rewrite move_move. apply move_zero. Qed.

(** The two loops have the same text. *)
Lemma ghostLoop_hardDropLoop (fuel : nat) (g : Tetris) (t : Tetromino) :
  ghostLoop fuel g t = hardDropLoop fuel g t.
Proof.
  revert t. induction fuel as [|fuel IH]; intros t; simpl; [done|].
  by rewrite IH.
Qed.

(** More fuel does not change a result. *)
Lemma hardDropLoop_fuel (f1 f2 : nat) (g : Tetris) (t a b : Tetromino) :
  hardDropLoop f1 g t = Ret a -> hardDropLoop f2 g t = Ret b -> a = b.
Proof.
  revert f2 t. induction f1 as [|f1 IH]; intros f2 t; destruct f2 as [|f2];
    simpl; destruct (checkCollision g t); try congruence.
  apply IH.
Qed.

(** From a free piece the loop stops one step below a free piece. *)
Lemma hardDropLoop_rest (fuel : nat) (g : Tetris) (t t' : Tetromino) :
  checkCollision g t = false ->
  hardDropLoop fuel g t = Ret t' ->
  checkCollision g t' = true /\
  checkCollision g (move t' (mkPosition 0 (-1))) = false /\
  move (move t' (mkPosition 0 (-1))) VEC_DOWN = t' /\
  length (blocks t') = length (blocks t).
Proof.
  revert t. induction fuel as [|fuel IH]; intros t Hfree; simpl;
    rewrite Hfree; [done|].
  destruct (checkCollision g (move t VEC_DOWN)) eqn:E.
  - destruct fuel; simpl; rewrite E; intros [= <-];
      rewrite move_down_up, length_move; done.
  - intros Hrun. destruct (IH _ E Hrun) as (H1 & H2 & H3 & H4).
    by rewrite length_move in H4.
Qed.

Lemma free_block_rows (g : Tetris) (t : Tetromino) (b : Position) :
  checkCollision g t = false -> b ∈ blocks t -> 0 <= y b < rows g.
Proof.
  intros E Hb. apply checkCollision_false in E.
  rewrite Forall_forall in E. rewrite list_elem_of_In in Hb.
  specialize (E b Hb). unfold isOccupied in E.
  destruct (isInside g b) eqn:Hin; [|done].
  apply isInside_true in Hin. lia.
Qed.

(** The loop ends: a block of a free piece is above the floor, and each
    turn brings it one row nearer. *)
Lemma hardDropLoop_terminates (fuel : nat) (g : Tetris) (t : Tetromino)
    (b : Position) :
  b ∈ blocks t -> rows g - y b <= Z.of_nat fuel ->
  exists t', hardDropLoop fuel g t = Ret t'.
Proof.
  revert t b. induction fuel as [|fuel IH]; intros t b Hb Hfuel; simpl;
    destruct (checkCollision g t) eqn:E; eauto.
  - pose proof (free_block_rows g t b E Hb). lia.
  - pose proof (free_block_rows g t b E Hb).
    apply (IH _ (padd b VEC_DOWN)).
    + unfold move; simpl. rewrite list_elem_of_In.
      apply (in_map (fun block => padd block VEC_DOWN)).
      by rewrite <- list_elem_of_In.
    + simpl. lia.
Qed.

(** On a free piece with a block, fuel for every row is enough. *)
Lemma hardDropLoop_enough (fuel : nat) (g : Tetris) (t : Tetromino) :
  checkCollision g t = false -> blocks t <> [] ->
  rows g <= Z.of_nat fuel ->
  exists t', hardDropLoop fuel g t = Ret t'.
Proof.
  intros Hfree Hne Hfuel. destruct (blocks t) as [|b bs] eqn:E; [done|].
  assert (b ∈ blocks t) as Hb by (rewrite E; left).
  pose proof (free_block_rows g t b Hfree Hb).
  apply (hardDropLoop_terminates fuel g t b); [done|lia].
Qed.

(** ** What the loop keeps *)

Lemma getNewTetromino_shape (r : N) :
  exists n, (n < length shapes)%nat /\
    Z.rem (Z.of_N r) (Z.of_nat (length shapes)) = Z.of_nat n /\
    getNewTetromino r =
      mkTetromino (shapes !!! n) (pieceTag (Z.of_nat n)) (Z.of_nat n).
Proof.
  pose proof (Z.rem_bound_pos (Z.of_N r) (Z.of_nat (length shapes))
                ltac:(lia) ltac:(simpl; lia)) as Hb.
  exists (Z.to_nat (Z.rem (Z.of_N r) (Z.of_nat (length shapes)))).
  split; [lia|]. split; [lia|].
  unfold getNewTetromino. cbv zeta. by rewrite Z2Nat.id by lia.
Qed.

Lemma getNewTetromino_spawn (r : N) :
  length (blocks (getNewTetromino r)) = 4%nat /\
  checkCollision (newTetris GRID_ROWS GRID_COLS) (getNewTetromino r) = false.
Proof.
  destruct (getNewTetromino_shape r) as (n & Hn & _ & ->).
  simpl in Hn. do 7 (destruct n as [|n]; [by vm_compute|]). lia.
Qed.

Lemma initial_Inv (f : HighscoreFile) (r1 r2 : N) (c0 : Z) :
  Inv (loadHighscore f) (initialState f r1 r2 c0) /\
  pieceFree (initialState f r1 r2 c0).
Proof.
  split; [|apply getNewTetromino_spawn].
  split; simpl; try done; try lia; try apply getNewTetromino_spawn.
  all: try (by vm_compute).
  all: by left.
Qed.

Lemma tryMove_free (g : Tetris) (t : Tetromino) (d : Position) :
  checkCollision g t = false ->
  checkCollision g (tryMove g t d) = false /\
  length (blocks (tryMove g t d)) = length (blocks t).
Proof.
  intros Hfree. unfold tryMove.
  destruct (checkCollision g (move t d)) eqn:E; cbn [negb]; [done|].
  split; [done|apply length_move].
Qed.

Lemma firstFree_free (g : Tetris) (cs : list Tetromino) (t : Tetromino) :
  checkCollision g t = false ->
  Forall (fun c => length (blocks c) = length (blocks t)) cs ->
  checkCollision g (firstFree g cs t) = false /\
  length (blocks (firstFree g cs t)) = length (blocks t).
Proof.
  intros Hfree Hall. unfold firstFree.
  induction Hall as [|c cs Hc Hall IH]; simpl; [done|].
  destruct (checkCollision g c) eqn:E; simpl; [apply IH|done].
Qed.

Lemma candidates_length (prog : Program) (t : Tetromino) :
  Forall (fun c => length (blocks c) = length (blocks t)) (candidates prog t).
Proof.
  unfold candidates. repeat constructor;
    by rewrite ?length_move, length_rotate.
Qed.

(** The input phase changes the piece, the drop time and the flag only, and
    a free piece stays free. *)
Lemma inputPhase_keeps (prog : Program) (fuel : nat) (ev : Event)
    (s s1 : GameState) :
  pieceFree s -> inputPhase prog fuel ev s = Ret s1 ->
  pieceFree s1 /\
  length (blocks (tetromino s1)) = length (blocks (tetromino s)) /\
  game s1 = game s /\ nextT s1 = nextT s /\ score s1 = score s /\
  level s1 = level s /\ totalLines s1 = totalLines s /\
  highscore s1 = highscore s /\ dropIntervalMs s1 = dropIntervalMs s.
Proof.
  unfold pieceFree, inputPhase. intros Hfree.
  destruct (key ev) as [ch|]; [|by intros [= <-]].
  destruct (decodeKey prog ch); cbn [handleInput].
  - by intros [= <-].
  - intros [= <-]; simpl.
    destruct (tryMove_free (game s) (tetromino s) VEC_LEFT Hfree). done.
  - intros [= <-]; simpl.
    destruct (tryMove_free (game s) (tetromino s) VEC_RIGHT Hfree). done.
  - intros [= <-]; simpl.
    destruct (tryMove_free (game s) (tetromino s) VEC_DOWN Hfree). done.
  - intros [= <-]; simpl.
    assert (match prog with
            | Curses => tryRotate (game s) (tetromino s)
            | Legacy => tryRotateLegacy (game s) (tetromino s)
            end = firstFree (game s) (candidates prog (tetromino s))
                            (tetromino s)) as ->.
    { destruct prog;
        [apply tryRotate_candidates|apply tryRotateLegacy_candidates]. }
    destruct (firstFree_free (game s) (candidates prog (tetromino s))
                (tetromino s) Hfree (candidates_length prog _)). done.
  - unfold hardDrop.
    destruct (hardDropLoop fuel (game s) (tetromino s)) as [t'| |] eqn:E;
      simpl; try done.
    intros [= <-]; cbn [game tetromino nextT score level totalLines highscore
                         dropIntervalMs setLastDrop setTetromino].
    destruct (hardDropLoop_rest fuel (game s) (tetromino s) t' Hfree E)
      as (_ & H2 & _ & H4).
    by rewrite length_move.
  - by intros [= <-].
Qed.

Lemma inputPhase_Inv (prog : Program) (fuel : nat) (ev : Event)
    (hs0 : Z) (s s1 : GameState) :
  Inv hs0 s -> pieceFree s -> inputPhase prog fuel ev s = Ret s1 ->
  Inv hs0 s1 /\ pieceFree s1.
Proof.
  intros HI Hfree Hrun.
  destruct (inputPhase_keeps prog fuel ev s s1 Hfree Hrun)
    as (H1 & H2 & H3 & H4 & H5 & H6 & H7 & H8 & H9).
  split; [|done]. destruct HI.
  split; rewrite ?H2, ?H3, ?H4, ?H5, ?H6, ?H7, ?H8, ?H9; done.
Qed.

(** With fuel for every row the input phase gives a result. *)
Lemma inputPhase_total (prog : Program) (fuel : nat) (ev : Event)
    (hs0 : Z) (s : GameState) :
  Inv hs0 s -> pieceFree s -> GRID_ROWS <= Z.of_nat fuel ->
  exists s1, inputPhase prog fuel ev s = Ret s1.
Proof.
  intros HI Hfree Hfuel. unfold inputPhase.
  destruct (key ev) as [ch|]; [|eauto].
  destruct (decodeKey prog ch); cbn [handleInput]; eauto.
  unfold hardDrop.
  destruct (hardDropLoop_enough fuel (game s) (tetromino s)) as [t' ->];
    simpl; eauto.
  - intros E. pose proof (inv_piece _ _ HI) as Hl. by rewrite E in Hl.
  - by rewrite (inv_rows _ _ HI).
Qed.

Lemma readLineScore_in_range (cleared : Z) :
  0 <= cleared <= 4 ->
  exists v, readLineScore cleared = Ret v /\
            lineScores !! Z.to_nat cleared = Some v /\
            (0 < cleared -> 40 <= v).
Proof.
  intros H.
  assert (cleared = 0 \/ cleared = 1 \/ cleared = 2 \/ cleared = 3
          \/ cleared = 4) as Hc by lia.
  destruct Hc as [->|[->|[->|[->| ->]]]]; eexists;
    (split; [reflexivity|]); (split; [reflexivity|]); lia.
Qed.

Lemma readLineScore_Ret (cleared v : Z) :
  readLineScore cleared = Ret v ->
  0 <= cleared < Z.of_nat (length lineScores) /\
  lineScores !! Z.to_nat cleared = Some v.
Proof.
  unfold readLineScore. destruct (Z.ltb_spec cleared 0); [done|].
  destruct (lineScores !! Z.to_nat cleared) as [w|] eqn:E; [|done].
  intros [= ->]. split; [|done]. apply lookup_lt_Some in E. lia.
Qed.

Lemma level_positive (lines : Z) : 0 <= lines -> 1 <= Z.quot lines 10 + 1.
Proof. intros H. pose proof (Z.quot_pos lines 10 H ltac:(lia)). lia. Qed.

(** The score update, for a count of cleared rows within the table. *)
Lemma scoring_Inv (hs0 : Z) (cleared : Z) (s : GameState) :
  Inv hs0 s -> 0 <= cleared <= 4 ->
  exists s', scoring cleared s = Ret s' /\ Inv hs0 s' /\
    game s' = game s /\ tetromino s' = tetromino s /\ nextT s' = nextT s /\
    lastDrop s' = lastDrop s /\ gameOver s' = gameOver s /\
    score s <= score s'.
Proof.
  intros HI Hc. unfold scoring.
  destruct (Z.ltb_spec 0 cleared) as [Hpos|Hzero].
  - destruct (readLineScore_in_range cleared Hc) as (v & -> & _ & Hv).
    specialize (Hv Hpos). simpl. eexists. split; [reflexivity|].
    destruct HI. pose proof (level_positive (totalLines s) inv_lines0).
    pose proof (level_positive (totalLines s + cleared) ltac:(lia)).
    assert (score s < score s + v * level s) by nia.
    split; [split; simpl; try done; try lia|simpl; repeat split; lia].
    destruct (Z.ltb_spec (highscore s) (score s + v * level s)); lia.
  - exists s. split; [done|]. split; [done|]. repeat split. lia.
Qed.

(** The lock branch: it gives a state, the invariant holds there, and a new
    piece that collides ends the game. *)
Lemma lockEvent_Inv (hs0 : Z) (ev : Event) (s : GameState) :
  Inv hs0 s ->
  exists s', lockEvent ev s = Ret s' /\ Inv hs0 s' /\
    (gameOver s' = false -> pieceFree s') /\
    (checkCollision (game s') (tetromino s') = true -> gameOver s' = true) /\
    score s <= score s'.
Proof.
  intros HI. unfold lockEvent.
  pose proof (lock_then_clear (game s) (tetromino s) (inv_wf _ _ HI)) as H.
  rewrite (inv_cols _ _ HI) in H. specialize (H ltac:(done)
    (inv_no_full_row _ _ HI)).
  destruct (clearLines (lockTetromino (game s) (tetromino s)))
    as [g cleared]. simpl in H.
  destruct H as (Hwf & Hrows & Hcols & Hnone & Hcl).
  rewrite (inv_piece _ _ HI) in Hcl.
  destruct (scoring_Inv hs0 cleared s HI ltac:(lia))
    as (s1 & -> & HI1 & E1 & E2 & E3 & E4 & E5 & Hle).
  simpl. eexists. split; [reflexivity|].
  destruct (getNewTetromino_spawn (randValue ev)) as [Hlen _].
  destruct HI1. split; [|split; [|split]]; simpl.
  - split; simpl; try done.
    by rewrite Hrows, (inv_rows _ _ HI).
  - unfold pieceFree; simpl.
    by destruct (checkCollision g (nextT s1)).
  - by intros ->.
  - done.
Qed.

Lemma gravityPhase_Inv (hs0 : Z) (ev : Event) (s : GameState) :
  Inv hs0 s -> pieceFree s ->
  exists s', gravityPhase ev s = Ret s' /\ Inv hs0 s' /\
    (gameOver s' = false -> pieceFree s') /\ score s <= score s'.
Proof.
  intros HI Hfree. unfold gravityPhase.
  destruct (gravityDue ev s);
    [|exists s; split; [done|]; split; [done|]; split; [done|lia]].
  destruct (checkCollision (game s) (move (tetromino s) VEC_DOWN)) eqn:E;
    cbn [negb].
  - destruct (lockEvent_Inv hs0 ev s HI) as (s' & -> & HI' & Hp & _ & Hle).
    simpl. eexists. split; [reflexivity|].
    split; [|split]; [|done..].
    destruct HI'. by split.
  - simpl. eexists. split; [reflexivity|].
    split; [|split]; [|done..].
    destruct HI. split; try done.
    cbn [tetromino setLastDrop setTetromino]. by rewrite length_move.
Qed.

Lemma iteration_Inv (prog : Program) (fuel : nat) (ev : Event) (hs0 : Z)
    (s s' : GameState) :
  Inv hs0 s -> pieceFree s -> iteration prog fuel ev s = Ret s' ->
  Inv hs0 s' /\ (gameOver s' = false -> pieceFree s') /\ score s <= score s'.
Proof.
  intros HI Hfree. unfold iteration.
  destruct (inputPhase prog fuel ev s) as [s1| |] eqn:E1; simpl; try done.
  destruct (inputPhase_Inv prog fuel ev hs0 s s1 HI Hfree E1) as [HI1 Hf1].
  destruct (inputPhase_keeps prog fuel ev s s1 Hfree E1)
    as (_ & _ & _ & _ & Hs & _).
  destruct (gravityPhase_Inv hs0 ev s1 HI1 Hf1) as (s2 & -> & HI2 & Hf2 & Hle).
  intros [= <-]. split; [done|]. split; [done|lia].
Qed.

Lemma reachable_Inv (prog : Program) (f : HighscoreFile) (s : GameState) :
  reachable prog f s ->
  Inv (loadHighscore f) s /\ (gameOver s = false -> pieceFree s).
Proof.
  induction 1 as [r1 r2 c0|s s' ev fuel Hreach [HI Hfree] Hover Hstep].
  - destruct (initial_Inv f r1 r2 c0). done.
  - destruct (iteration_Inv prog fuel ev _ s s' HI (Hfree Hover) Hstep)
      as (H1 & H2 & _). done.
Qed.

(** A turn of the loop gives a state, with fuel for every row. *)
Lemma iteration_total (prog : Program) (fuel : nat) (ev : Event) (hs0 : Z)
    (s : GameState) :
  Inv hs0 s -> pieceFree s -> GRID_ROWS <= Z.of_nat fuel ->
  exists s', iteration prog fuel ev s = Ret s'.
Proof.
  intros HI Hfree Hfuel. unfold iteration.
  destruct (inputPhase_total prog fuel ev hs0 s HI Hfree Hfuel) as [s1 E1].
  rewrite E1. simpl.
  destruct (inputPhase_Inv prog fuel ev hs0 s s1 HI Hfree E1) as [HI1 Hf1].
  destruct (gravityPhase_Inv hs0 ev s1 HI1 Hf1) as (s2 & -> & _). eauto.
Qed.

(** ** Lock events *)


(** A state the lock branch can start from: after the input phase of a turn
    of a running game. *)
Lemma before_gravity_Inv (prog : Program) (f : HighscoreFile) (fuel : nat)
    (ev : Event) (s s1 : GameState) :
  reachable prog f s -> gameOver s = false ->
  inputPhase prog fuel ev s = Ret s1 ->
  Inv (loadHighscore f) s1 /\ pieceFree s1.
Proof.
  intros Hreach Hover Hrun.
  destruct (reachable_Inv prog f s Hreach) as [HI Hfree].
  apply (inputPhase_Inv prog fuel ev _ s s1); auto.
Qed.

(** C10: at a lock event of a running game the board had no full row, the
    lock fills at most four, so [clearLines] returns at most 4 and the read
    of [lineScores[cleared]], an array of five entries, is in range; after
    the clear no row is full again. *)
Theorem lock_event_clears_at_most_four
    (prog : Program) (f : HighscoreFile) (fuel : nat) (ev : Event)
    (s s1 : GameState) :
  reachable prog f s -> gameOver s = false ->
  inputPhase prog fuel ev s = Ret s1 ->
  let locked := lockTetromino (game s1) (tetromino s1) in
  let cleared := snd (clearLines locked) in
  fullRows (game s1) = [] /\
  cleared = Z.of_nat (length (fullRows locked)) /\
  0 <= cleared <= 4 /\
  length lineScores = 5%nat /\
  cleared < Z.of_nat (length lineScores) /\
  (exists points, readLineScore cleared = Ret points) /\
  (exists s', lockEvent ev s1 = Ret s') /\
  fullRows (fst (clearLines locked)) = [].
Proof.
  intros Hreach Hover Hrun locked cleared. subst locked cleared.
  destruct (before_gravity_Inv prog f fuel ev s s1 Hreach Hover Hrun)
    as [HI Hfree].
  pose proof (lock_then_clear (game s1) (tetromino s1) (inv_wf _ _ HI)) as H.
  rewrite (inv_cols _ _ HI) in H.
  specialize (H ltac:(done) (inv_no_full_row _ _ HI)). simpl in H.
  destruct H as (_ & _ & _ & Hnone & Hcl).
  rewrite (inv_piece _ _ HI) in Hcl.
  split; [apply (inv_no_full_row _ _ HI)|].
  split; [apply clearLines_count|].
  split; [lia|]. split; [done|]. split; [simpl; lia|].
  split.
  { destruct (readLineScore_in_range
                (snd (clearLines (lockTetromino (game s1) (tetromino s1)))))
      as (v & Hv & _); [lia|eauto]. }
  split; [|done].
  destruct (lockEvent_Inv _ ev s1 HI) as (s' & Hs' & _). eauto.
Qed.


(** ** The running game *)

Lemma pieceFree_cells (g : Tetris) (t : Tetromino) :
  checkCollision g t = false ->
  Forall (fun b => isInside g b = true /\
            occupied (grid g !!! Z.to_nat (cellIndex g b)) = false)
         (blocks t).
Proof.
  intros Hfree. apply checkCollision_false in Hfree.
  eapply Forall_impl; [|apply Hfree]. simpl. intros b Hb.
  unfold isOccupied in Hb. by destruct (isInside g b).
Qed.

(** C9: at the head of the loop of a running game the active piece has its
    four blocks inside the board, on free cells.  The input phase (moves,
    rotation with its kicks, soft drop, hard drop) keeps the piece free; a
    whole turn, with the gravity step or the lock and the spawn, gives
    either a free piece or a finished game, and a new piece that collides
    finishes the game.  With fuel for every row the turn gives a state. *)
Theorem active_piece_free_while_running
    (prog : Program) (f : HighscoreFile) (s : GameState) :
  reachable prog f s -> gameOver s = false ->
  checkCollision (game s) (tetromino s) = false /\
  length (blocks (tetromino s)) = 4%nat /\
  Forall (fun b => isInside (game s) b = true /\
            occupied (grid (game s) !!! Z.to_nat (cellIndex (game s) b))
            = false)
         (blocks (tetromino s)) /\
  (forall fuel ev s1, inputPhase prog fuel ev s = Ret s1 ->
     checkCollision (game s1) (tetromino s1) = false) /\
  (forall fuel ev s', iteration prog fuel ev s = Ret s' ->
     (gameOver s' = false ->
      checkCollision (game s') (tetromino s') = false) /\
     (checkCollision (game s') (tetromino s') = true ->
      gameOver s' = true)) /\
  (forall ev, exists s', iteration prog (Z.to_nat GRID_ROWS) ev s = Ret s').
Proof.
  intros Hreach Hover.
  destruct (reachable_Inv prog f s Hreach) as [HI Hfree].
  specialize (Hfree Hover).
  split; [done|]. split; [apply (inv_piece _ _ HI)|].
  split; [by apply pieceFree_cells|]. split; [|split].
  - intros fuel ev s1 Hrun.
    by destruct (inputPhase_keeps prog fuel ev s s1 Hfree Hrun).
  - intros fuel ev s' Hrun.
    destruct (iteration_Inv prog fuel ev _ s s' HI Hfree Hrun)
      as (_ & Hf' & _).
    split; [done|]. intros Hc.
    destruct (gameOver s') eqn:E; [done|].
    specialize (Hf' eq_refl). unfold pieceFree in Hf'. congruence.
  - intros ev. apply (iteration_total prog _ ev _ s HI Hfree).
    by vm_compute.
Qed.

(** C5: on a free piece the hard drop's loop and step back leave the piece
    where [getGhost] puts its copy, whatever fuel [getGhost] is given; the
    drop time is set ten seconds back, so the gravity test that follows in
    the same turn succeeds whenever the drop interval is below ten seconds,
    and it takes the lock branch, the piece resting on something. *)
Theorem hard_drop_lands_on_ghost
    (prog : Program) (fuel : nat) (ev : Event) (s : GameState) :
  checkCollision (game s) (tetromino s) = false ->
  blocks (tetromino s) <> [] ->
  rows (game s) <= Z.of_nat fuel ->
  clockInput ev <= clockGravity ev ->
  dropIntervalMs s < 10000 ->
  exists ghost,
    getGhost fuel (game s) (tetromino s) = Ret ghost /\
    (forall fuel' other,
       getGhost fuel' (game s) (tetromino s) = Ret other -> other = ghost) /\
    checkCollision (game s) ghost = false /\
    checkCollision (game s) (move ghost VEC_DOWN) = true /\
    let s1 := setLastDrop (clockInput ev - tenSeconds) (setTetromino ghost s) in
    handleInput prog fuel ev HardDrop s = Ret s1 /\
    gravityDue ev s1 = true /\
    gravityPhase ev s1 =
      (let* s2 := lockEvent ev s1 in Ret (setLastDrop (clockGravity ev) s2)).
Proof.
  intros Hfree Hne Hfuel Hclock Hint.
  destruct (hardDropLoop_enough fuel (game s) (tetromino s) Hfree Hne Hfuel)
    as [t' Hrun].
  destruct (hardDropLoop_rest fuel (game s) (tetromino s) t' Hfree Hrun)
    as (Hhit & Hrest & Hback & _).
  exists (move t' (mkPosition 0 (-1))).
  split; [unfold getGhost; by rewrite ghostLoop_hardDropLoop, Hrun|].
  split.
  { intros fuel' other. unfold getGhost. rewrite ghostLoop_hardDropLoop.
    destruct (hardDropLoop fuel' (game s) (tetromino s)) as [t''| |] eqn:E;
      simpl; try done.
    intros [= <-]. by rewrite (hardDropLoop_fuel _ _ _ _ _ _ E Hrun). }
  split; [done|]. split; [by rewrite Hback|]. cbv zeta.
  split; [cbn [handleInput]; unfold hardDrop; by rewrite Hrun|].
  assert (gravityDue ev
            (setLastDrop (clockInput ev - tenSeconds)
               (setTetromino (move t' (mkPosition 0 (-1))) s)) = true) as Hdue.
  { unfold gravityDue; simpl. apply Z.ltb_lt.
    unfold tenSeconds, ticksPerMs.
    rewrite Z.quot_div_nonneg by lia.
    eapply Z.lt_le_trans; [apply Hint|].
    apply Z.div_le_lower_bound; lia. }
  split; [done|].
  unfold gravityPhase. rewrite Hdue.
  cbn [game tetromino setLastDrop setTetromino]. by rewrite Hback, Hhit.
Qed.

(** ** Sessions *)



End Properties.

(** * The definitions at work *)

Import Examples.

Example smallBoard_clearLines :
  clearLines smallBoard =
    (mkTetris 3 2 (map cell [false; false; false; true; true; false]), 1).
Proof. reflexivity. Qed.

Example pieceT_rotate :
  blocks (rotate pieceT) =
    [mkPosition 4 0; mkPosition 4 1; mkPosition 4 2; mkPosition 3 1].
Proof. reflexivity. Qed.

Example two_lines_at_level_three :
  scoring 2 (mkGameState emptyBoard pieceT pieceT 1000 3 20 5000 700 0 false)
  = Ret (mkGameState emptyBoard pieceT pieceT 1300 3 22 5000 650 0 false).
Proof. reflexivity. Qed.

Example tenth_line_reaches_level_two :
  scoring 1 (mkGameState emptyBoard pieceT pieceT 0 1 9 0 800 0 false)
  = Ret (mkGameState emptyBoard pieceT pieceT 40 2 10 40 700 0 false).
Proof. reflexivity. Qed.

Example five_rows_read_out_of_range : readLineScore 5 = OutOfRange.
Proof. reflexivity. Qed.

Example legacy_kick_commits_one_left :
  blocks (tryRotateLegacy legacyBoard legacyPieceI) =
    [mkPosition 2 0; mkPosition 2 1; mkPosition 2 2; mkPosition 2 3] /\
  blocks (tryRotate legacyBoard legacyPieceI) =
    [mkPosition 1 0; mkPosition 1 1; mkPosition 1 2; mkPosition 1 3].
Proof. split; reflexivity. Qed.

(** * The theorems at concrete inputs *)

Lemma smallBoard_wf : wf smallBoard.
Proof. unfold wf; simpl. repeat split; (lia || reflexivity). Defined.

Lemma isOccupied_walls_and_cells_witness :
  wf smallBoard /\
  isOccupied smallBoard (mkPosition 2 1) = true /\
  isOccupied smallBoard (mkPosition 0 0) = false.
Proof.
  split; [exact smallBoard_wf|].
  destruct (isOccupied_walls_and_cells smallBoard (mkPosition 2 1)
              smallBoard_wf) as [Hout _].
  destruct (isOccupied_walls_and_cells smallBoard (mkPosition 0 0)
              smallBoard_wf) as [_ Hin].
  split.
  - apply Hout. simpl. lia.
  - destruct Hin as (_ & cell0 & Hcell & ->); [simpl; lia|].
    vm_compute in Hcell. by injection Hcell as <-.
Defined.

Lemma clearLines_gravity_compaction_witness :
  wf smallBoard /\
  snd (clearLines smallBoard) = 1 /\
  rowCells (fst (clearLines smallBoard)) 0 = emptyRow smallBoard /\
  rowCells (fst (clearLines smallBoard)) 1 = rowCells smallBoard 0.
Proof.
  split; [exact smallBoard_wf|].
  destruct (clearLines_gravity_compaction smallBoard smallBoard_wf)
    as (_ & _ & _ & Hcount & _ & _ & _ & Hrows).
  split; [rewrite Hcount; reflexivity|].
  destruct Hrows as (_ & Htop & Hkept); [vm_compute; lia|].
  split.
  - apply (Htop 0%nat). vm_compute. lia.
  - apply (Hkept 0%nat 0). reflexivity.
Defined.

Lemma rotate_about_first_block_witness :
  shapeIdx pieceT <> 0 /\
  blocks (rotate pieceT) !! 3%nat = Some (mkPosition 3 1).
Proof.
  assert (shapeIdx pieceT <> 0) as Hne by (simpl; lia).
  split; [exact Hne|].
  destruct (rotate_about_first_block pieceT) as [_ Hrot].
  destruct (Hrot Hne (mkPosition 4 0)
              [mkPosition 5 0; mkPosition 6 0; mkPosition 5 1] eq_refl)
    as (_ & _ & _ & Hblocks).
  destruct (Hblocks 3%nat (mkPosition 5 1) eq_refl) as [_ H]. exact H.
Defined.

Lemma rotate_key_first_free_candidate_witness :
  Forall (fun c => checkCollision emptyBoard c = true)
         (candidates Curses pieceOnFloor) /\
  handleInput Curses 0 noKey RotateKey (stateWith emptyBoard pieceOnFloor)
  = Ret (stateWith emptyBoard pieceOnFloor).
Proof.
  assert (Forall (fun c => checkCollision emptyBoard c = true)
                 (candidates Curses pieceOnFloor)) as Hall
    by (repeat constructor).
  split; [exact Hall|].
  destruct (rotate_key_first_free_candidate Curses 0 noKey
              (stateWith emptyBoard pieceOnFloor)) as (_ & _ & _ & Hstay).
  exact (Hstay Hall).
Defined.

Lemma rejected_move_changes_nothing_witness :
  checkCollision emptyBoard (move pieceAtWall VEC_LEFT) = true /\
  handleInput Curses 0 noKey MoveLeft (stateWith emptyBoard pieceAtWall)
  = Ret (stateWith emptyBoard pieceAtWall).
Proof.
  destruct (rejected_move_changes_nothing Curses 0 noKey
              (stateWith emptyBoard pieceAtWall) MoveLeft VEC_LEFT)
    as (Hc & Hsame & _).
  - left. split; reflexivity.
  - exists (mkPosition (-1) 0). split; [|left; reflexivity].
    apply list_elem_of_In. simpl. left. reflexivity.
  - split; [exact Hc|exact Hsame].
Defined.

Lemma startState_reachable : reachable Curses NoFile startState.
Proof. apply reach_init. Defined.


Lemma lock_event_clears_at_most_four_witness :
  reachable Curses NoFile startState /\
  snd (clearLines (lockTetromino (game startState) (tetromino startState)))
  <= 4.
Proof.
  split; [exact startState_reachable|].
  destruct (lock_event_clears_at_most_four Curses NoFile 0 noKey startState
              startState startState_reachable eq_refl eq_refl)
    as (_ & _ & Hle & _).
  apply Hle.
Defined.

Lemma active_piece_free_while_running_witness :
  reachable Curses NoFile startState /\
  checkCollision (game startState) (tetromino startState) = false.
Proof.
  split; [exact startState_reachable|].
  destruct (active_piece_free_while_running Curses NoFile startState
              startState_reachable eq_refl) as (Hfree & _).
  exact Hfree.
Defined.

Lemma hard_drop_lands_on_ghost_witness :
  checkCollision (game startState) (tetromino startState) = false /\
  exists ghost,
    getGhost 20 (game startState) (tetromino startState) = Ret ghost /\
    handleInput Curses 20 spaceKey HardDrop startState
    = Ret (setLastDrop (clockInput spaceKey - tenSeconds)
                       (setTetromino ghost startState)).
Proof.
  split; [reflexivity|].
  destruct (hard_drop_lands_on_ghost Curses 20 spaceKey startState)
    as (ghost & Hghost & _ & _ & _ & Hdrop & _).
  - reflexivity.
  - simpl. discriminate.
  - vm_compute. discriminate.
  - vm_compute. discriminate.
  - simpl. lia.
  - exists ghost. split; [exact Hghost|exact Hdrop].
Defined.


(** C3 as stated fails on [tetrois_leagacy.cpp]: with the rotated I-piece
    and its right kick blocked, that program commits the piece one cell left
    of the rotated position, not two. *)
Lemma legacy_rotation_is_not_as_stated :
  ~ (forall (prog : Program) (fuel : nat) (ev : Event) (s : @GameState string),
       handleInput prog fuel ev RotateKey s =
         Ret (setTetromino (firstFree (game s) (statedCandidates (tetromino s))
                                      (tetromino s)) s)).
Proof.
  intros H. specialize (H Legacy 0%nat noKey legacyState).
  vm_compute in H. discriminate H.
Qed.


(** * More of the engine *)

Section Engine.

Context {Tag : Type} {tags : TagOps Tag}.

Local Abbreviation Tetromino := (@Tetromino Tag) (only parsing).
Local Abbreviation Block := (@Block Tag) (only parsing).
Local Abbreviation Tetris := (@Tetris Tag) (only parsing).
Local Abbreviation GameState := (@GameState Tag) (only parsing).

(** ** Moves and rotations *)

(** X1: moving by [d] and then by the opposite of [d] gives the piece back,
    and two moves are one move by the sum. *)
Theorem move_there_and_back (t : Tetromino) (a b : Position) :
  move (move t a) (opposite a) = t /\
  move (move t a) b = move t (padd a b) /\
  move (move t a) b = move (move t b) a.
Proof.
  split; [|split].
  - rewrite move_move. unfold padd, opposite; simpl.
    replace (x a + - x a) with 0 by lia. replace (y a + - y a) with 0 by lia.
    apply move_zero.
  - apply move_move.
  - rewrite !move_move. f_equal. unfold padd. f_equal; lia.
Qed.

Lemma rotateBlock_center (c : Position) : rotateBlock c c = c.
Proof. destruct c as [cx cy]. unfold rotateBlock; simpl. f_equal; lia. Qed.

Lemma rotate_cons (t : Tetromino) (c : Position) (rest : list Position) :
  shapeIdx t <> 0 -> blocks t = c :: rest ->
  rotate t = mkTetromino (c :: map (rotateBlock c) rest)
                         (colorPair t) (shapeIdx t).
Proof.
  intros Hne Hb. unfold rotate.
  destruct (Z.eqb_spec (shapeIdx t) 0) as [|_]; [done|].
  rewrite Hb. simpl. by rewrite rotateBlock_center.
Qed.

(** X2: four rotations give the piece back, two rotations mirror every
    block through the first one, and a rotation never moves the first
    block. *)
Theorem rotate_four_times (t : Tetromino) :
  rotate (rotate (rotate (rotate t))) = t /\
  (forall c rest, shapeIdx t <> 0 -> blocks t = c :: rest ->
     blocks (rotate (rotate t)) =
       map (fun b => mkPosition (x c - (x b - x c)) (y c - (y b - y c)))
           (blocks t)) /\
  blocks (rotate t) !! 0%nat = blocks t !! 0%nat.
Proof.
  destruct t as [bs col idx].
  destruct (Z.eq_dec idx 0) as [->|Hne].
  { split; [done|]. split; [intros c rest H; by simpl in H|done]. }
  destruct bs as [|c rest].
  { assert (rotate (mkTetromino [] col idx) = mkTetromino [] col idx) as E.
    { unfold rotate; simpl. by destruct (idx =? 0). }
    rewrite !E. split; [done|]. split; [intros c rest _ H; by simpl in H|done]. }
  assert (forall l, rotate (mkTetromino (c :: l) col idx)
                    = mkTetromino (c :: map (rotateBlock c) l) col idx) as E.
  { intros l. by apply rotate_cons. }
  split; [|split].
  - rewrite !E. f_equal. f_equal. rewrite !map_map.
    rewrite <- (map_id rest) at 2. apply map_ext.
    intros [bx by_]. unfold rotateBlock; simpl. f_equal; lia.
  - intros c' rest' _ [= <- <-]. rewrite !E. simpl. f_equal.
    + destruct c as [cx cy]. simpl. f_equal; lia.
    + rewrite map_map. apply map_ext.
      intros [bx by_]. unfold rotateBlock; simpl. f_equal; lia.
  - by rewrite E.
Qed.

(** X3: rotating a moved piece is moving the rotated piece: the rotation
    depends on the shape only, not on where the piece is. *)
Theorem rotate_move_commute (t : Tetromino) (d : Position) :
  rotate (move t d) = move (rotate t) d.
Proof.
  destruct t as [bs col idx]. unfold rotate, move; simpl.
  destruct (idx =? 0); [done|].
  destruct bs as [|c rest]; [done|]. simpl. f_equal.
  assert (forall b, rotateBlock (padd c d) (padd b d)
                    = padd (rotateBlock c b) d) as E.
  { intros b. unfold rotateBlock, padd; simpl. f_equal; lia. }
  f_equal; [apply E|]. rewrite !map_map. apply map_ext. intros b. apply E.
Qed.

(** ** Locking *)

Lemma cellIndex_inj (g : Tetris) (p q : Position) :
  isInside g p = true -> isInside g q = true ->
  Z.to_nat (cellIndex g p) = Z.to_nat (cellIndex g q) -> p = q.
Proof.
  intros Hp Hq Heq. apply isInside_true in Hp. apply isInside_true in Hq.
  unfold cellIndex in Heq. destruct p as [px py], q as [qx qy]; simpl in *.
  apply Z2Nat.inj in Heq; [|nia..].
  assert (py = qy) by nia. subst. f_equal. lia.
Qed.

(** A cell a block of the piece lies on holds the piece's colour. *)
Lemma lock_fold_hit (g : Tetris) (c : Tag) (bs : list Position)
    (cells : list Block) (i : nat) :
  Exists (fun b => isInside g b = true /\ Z.to_nat (cellIndex g b) = i) bs ->
  (i < length cells)%nat ->
  fold_left (lockCell g c) bs cells !! i = Some (mkBlock c true).
Proof.
  revert cells. induction bs as [|b bs IH]; intros cells Hex Hlt.
  - by apply Exists_nil in Hex.
  - simpl.
    destruct (decide (Exists (fun b => isInside g b = true /\
                                Z.to_nat (cellIndex g b) = i) bs)) as [Ht|Ht].
    + apply IH; [done|]. unfold lockCell.
      destruct (isInside g b); simpl; by rewrite ?length_insert.
    + apply Exists_cons in Hex. destruct Hex as [[Hin Hi]|Hex]; [|done].
      rewrite lock_fold_other.
      * unfold lockCell. rewrite Hin. simpl. subst i.
        by apply list_lookup_insert_eq.
      * apply not_Exists_Forall in Ht; [|intros q; apply _].
        eapply Forall_impl; [|apply Ht]. simpl. tauto.
Qed.

Lemma lock_lookup_block (g : Tetris) (t : Tetromino) (p : Position) :
  wf g -> isInside g p = true -> In p (blocks t) ->
  grid (lockTetromino g t) !! Z.to_nat (cellIndex g p)
  = Some (mkBlock (colorPair t) true).
Proof.
  intros Hwf Hin Hp. simpl. apply lock_fold_hit.
  - apply Exists_exists. exists p. tauto.
  - by apply cellIndex_bounds.
Qed.

Lemma lock_lookup_other (g : Tetris) (t : Tetromino) (p : Position) :
  isInside g p = true -> ~ In p (blocks t) ->
  grid (lockTetromino g t) !! Z.to_nat (cellIndex g p)
  = grid g !! Z.to_nat (cellIndex g p).
Proof.
  intros Hin Hp. simpl. apply lock_fold_other.
  apply Forall_forall. intros b Hb Hbin Heq.
  apply Hp. by rewrite <- (cellIndex_inj g b p Hbin Hin Heq).
Qed.

(** X4: after [lockTetromino] a cell inside the board is occupied exactly
    when it was occupied or a block of the piece lies on it; the cells under
    the piece carry its colour, every other cell is as it was, and the piece
    itself now collides with the board. *)
Theorem lockTetromino_occupies (g : Tetris) (t : Tetromino) :
  wf g ->
  (forall p, isInside g p = true ->
     isOccupied (lockTetromino g t) p
     = isOccupied g p || bool_decide (p ∈ blocks t)) /\
  (forall p, isInside g p = true -> p ∈ blocks t ->
     grid (lockTetromino g t) !! Z.to_nat (cellIndex g p)
     = Some (mkBlock (colorPair t) true)) /\
  (forall p, isInside g p = true -> p ∉ blocks t ->
     grid (lockTetromino g t) !! Z.to_nat (cellIndex g p)
     = grid g !! Z.to_nat (cellIndex g p)) /\
  (blocks t <> [] -> checkCollision (lockTetromino g t) t = true).
Proof.
  intros Hwf.
  assert (forall p, isInside g p = true ->
     isOccupied (lockTetromino g t) p
     = isOccupied g p || bool_decide (p ∈ blocks t)) as Hocc.
  { intros p Hin. unfold isOccupied.
    change (isInside (lockTetromino g t) p) with (isInside g p).
    change (cellIndex (lockTetromino g t) p) with (cellIndex g p).
    rewrite Hin. cbn [negb]. rewrite !list_lookup_total_alt.
    destruct (decide (p ∈ blocks t)) as [Hp|Hp].
    - rewrite (bool_decide_eq_true_2 _ Hp), orb_true_r.
      rewrite list_elem_of_In in Hp.
      by rewrite (lock_lookup_block g t p Hwf Hin Hp).
    - rewrite (bool_decide_eq_false_2 _ Hp), orb_false_r.
      rewrite list_elem_of_In in Hp.
      by rewrite (lock_lookup_other g t p Hin Hp). }
  split; [done|]. split; [|split].
  - intros p Hin Hp. rewrite list_elem_of_In in Hp.
    by apply lock_lookup_block.
  - intros p Hin Hp. rewrite list_elem_of_In in Hp.
    by apply lock_lookup_other.
  - intros Hne. destruct (blocks t) as [|b bs] eqn:E; [done|].
    apply checkCollision_true. exists b. rewrite ?E. split; [left|].
    destruct (isInside g b) eqn:Hin.
    + rewrite Hocc by done.
      rewrite bool_decide_eq_true_2 by left.
      apply orb_true_r.
    + unfold isOccupied.
      change (isInside (lockTetromino g t) b) with (isInside g b).
      by rewrite Hin.
Qed.

Lemma lockCell_outside (g : Tetris) (c : Tag) (bs : list Position)
    (cells : list Block) :
  Forall (fun b => isInside g b = false) bs ->
  fold_left (lockCell g c) bs cells = cells.
Proof.
  induction 1 as [|b bs Hb Hall IH]; simpl; [done|].
  unfold lockCell at 2. by rewrite Hb.
Qed.

(** X5: locking the same piece twice is locking it once, and a piece with
    every block outside the board leaves the board as it is. *)
Theorem lockTetromino_again (g : Tetris) (t : Tetromino) :
  lockTetromino (lockTetromino g t) t = lockTetromino g t /\
  (Forall (fun b => isInside g b = false) (blocks t) ->
   lockTetromino g t = g).
Proof.
  split.
  - unfold lockTetromino at 1. cbn [rows cols grid]. unfold lockTetromino.
    f_equal.
    set (cells := fold_left (lockCell g (colorPair t)) (blocks t) (grid g)).
    assert (forall l, fold_left (lockCell (mkTetris (rows g) (cols g) cells)
                                   (colorPair t)) (blocks t) l
                      = fold_left (lockCell g (colorPair t)) (blocks t) l)
      as -> by done.
    apply list_eq. intros i.
    destruct (decide (Exists (fun b => isInside g b = true /\
                Z.to_nat (cellIndex g b) = i) (blocks t))) as [Hex|Hno].
    + destruct (decide (i < length (grid g))%nat) as [Hlt|Hge].
      * rewrite lock_fold_hit;
          [|done|subst cells; cbn [grid]; by rewrite length_lock_fold].
        subst cells. by rewrite lock_fold_hit.
      * rewrite !lookup_ge_None_2;
          [done|subst cells; cbn [grid]; rewrite ?length_lock_fold; lia..].
    + apply lock_fold_other.
      apply not_Exists_Forall in Hno; [|intros q; apply _].
      eapply Forall_impl; [|apply Hno]. simpl. tauto.
  - intros Hout. destruct g as [r c cells]. unfold lockTetromino; simpl.
    f_equal. by apply lockCell_outside.
Qed.

(** ** Counting cells *)

Lemma count_insert (cells : list Block) (i : nat) (b : Block) (c : Tag) :
  cells !! i = Some b -> occupied b = false ->
  length (List.filter occupied (<[i := mkBlock c true]> cells))
  = S (length (List.filter occupied cells)).
Proof.
  intros Hi Hb.
  rewrite <- (take_drop_middle cells i b Hi) at 2.
  rewrite insert_take_drop by (by apply lookup_lt_Some in Hi).
  rewrite !filter_app, !length_app. simpl. rewrite Hb. simpl. lia.
Qed.

Lemma lock_fold_count (g : Tetris) (c : Tag) (bs : list Position)
    (cells : list Block) :
  NoDup bs ->
  Forall (fun b => isInside g b = true /\
            exists cell, cells !! Z.to_nat (cellIndex g b) = Some cell /\
                         occupied cell = false) bs ->
  length (List.filter occupied (fold_left (lockCell g c) bs cells))
  = (length (List.filter occupied cells) + length bs)%nat.
Proof.
  intros Hnd. revert cells.
  induction Hnd as [|b bs Hb Hnd IH]; intros cells Hall; simpl; [lia|].
  inversion Hall as [|? ? [Hin (cell & Hcell & Hfree)] Hall']; subst.
  rewrite IH.
  - unfold lockCell. rewrite Hin. cbn [negb].
    rewrite (count_insert _ _ _ _ Hcell Hfree). lia.
  - rewrite Forall_forall in *. intros q Hq.
    destruct (Hall' q Hq) as [Hqin (cq & Hcq & Hfq)].
    split; [done|]. exists cq. split; [|done].
    unfold lockCell. rewrite Hin. cbn [negb].
    rewrite list_lookup_insert_ne; [done|].
    intros Heq. apply Hb.
    by rewrite (cellIndex_inj g b q Hin Hqin Heq).
Qed.

Lemma lock_adds_cells (g : Tetris) (t : Tetromino) :
  wf g -> NoDup (blocks t) -> checkCollision g t = false ->
  occupiedCount (lockTetromino g t)
  = (occupiedCount g + length (blocks t))%nat.
Proof.
  intros Hwf Hnd Hfree. unfold occupiedCount, lockTetromino; simpl.
  apply lock_fold_count; [done|].
  pose proof (pieceFree_cells g t Hfree) as Hcells.
  rewrite Forall_forall in *. intros b Hb.
  destruct (Hcells b Hb) as [Hin Hocc]. split; [done|].
  destruct (cellIndex_bounds g b Hwf Hin) as [_ Hlt].
  destruct (lookup_lt_is_Some_2 _ _ Hlt) as [cell Hcell].
  exists cell. split; [done|].
  by rewrite (list_lookup_total_correct _ _ _ Hcell) in Hocc.
Qed.

(** X6: locking a piece that lies on free cells, no two of its blocks on the
    same cell, adds one occupied cell per block. *)
Theorem lockTetromino_count (g : Tetris) (t : Tetromino) :
  wf g -> NoDup (blocks t) -> checkCollision g t = false ->
  occupiedCount (lockTetromino g t)
  = (occupiedCount g + length (blocks t))%nat.
Proof. apply lock_adds_cells. Qed.

Lemma list_rows {A : Type} (l : list A) (c r : nat) :
  length l = (r * c)%nat ->
  l = concat (map (fun yy => take c (drop (yy * c) l)) (seq 0 r)).
Proof.
  revert l. induction r as [|r IH]; intros l Hlen.
  - by destruct l.
  - cbn [seq map concat]. rewrite <- seq_shift, map_map. simpl.
    rewrite <- (take_drop c l) at 1. f_equal.
    rewrite (IH (drop c l)) at 1 by (rewrite length_drop; lia).
    f_equal. apply map_ext. intros yy. by rewrite drop_drop.
Qed.

Lemma grid_rows (g : Tetris) :
  wf g -> grid g = concat (map (rowCells g) (seqZ 0 (rows g))).
Proof.
  intros (Hr & Hc & Hlen).
  rewrite (list_rows (grid g) (Z.to_nat (cols g)) (Z.to_nat (rows g))) at 1
    by (rewrite Hlen; nia).
  f_equal. unfold seqZ.
  change (map (rowCells g) ((fun i => Z.of_nat i + 0) <$> seq 0 (Z.to_nat (rows g))))
    with (map (rowCells g) (map (fun i => Z.of_nat i + 0)
                                (seq 0 (Z.to_nat (rows g))))).
  rewrite map_map. apply map_ext. intros yy. unfold rowCells.
  do 2 f_equal. nia.
Qed.

Lemma filter_all (l : list Block) :
  forallb occupied l = true -> List.filter occupied l = l.
Proof.
  induction l as [|b l IH]; simpl; [done|].
  intros [Hb Hl]%andb_true_iff. rewrite Hb. f_equal. by apply IH.
Qed.

Lemma filter_empty_cells (n : nat) :
  List.filter occupied (replicate n emptyBlock) = [].
Proof. induction n as [|n IH]; simpl; done. Qed.

Lemma count_rows_split (g : Tetris) (ys : list Z) :
  wf g -> Forall (fun yy => 0 <= yy < rows g) ys ->
  length (List.filter occupied (concat (map (rowCells g) ys)))
  = (length (List.filter occupied
       (concat (map (rowCells g)
                    (List.filter (fun yy => negb (rowFull g yy)) ys))))
     + length (List.filter (rowFull g) ys) * Z.to_nat (cols g))%nat.
Proof.
  intros Hwf. induction 1 as [|yy ys Hy Hall IH]; simpl; [done|].
  rewrite filter_app, length_app, IH.
  destruct (rowFull g yy) eqn:E; simpl.
  - rewrite rowFull_rowCells in E by done.
    rewrite (filter_all _ E), length_rowCells by done. lia.
  - rewrite filter_app, length_app. lia.
Qed.

Lemma clear_removes_cells (g : Tetris) :
  wf g ->
  (occupiedCount (fst (clearLines g))
   + Z.to_nat (snd (clearLines g)) * Z.to_nat (cols g))%nat
  = occupiedCount g.
Proof.
  intros Hwf. rewrite clearLines_count, Nat2Z.id.
  destruct (decide (fullRows g = [])) as [E|Hne].
  { rewrite clearLines_none by done. rewrite E. simpl. lia. }
  unfold occupiedCount. rewrite clearLines_grid by done.
  rewrite (grid_rows g Hwf) at 1.
  rewrite (count_rows_split g (seqZ 0 (rows g)) Hwf)
    by (apply Forall_forall; intros yy Hyy;
        rewrite <- list_elem_of_In, elem_of_seqZ in Hyy; lia).
  fold (keptRows g). fold (fullRows g).
  rewrite concat_app, filter_app, length_app.
  unfold emptyRow. rewrite <- replicate_rows, filter_empty_cells. simpl. lia.
Qed.

(** X7: [clearLines] removes exactly [cols] occupied cells per row it
    reports: the occupied cells before are those after plus the count
    returned times the width. *)
Theorem clearLines_count_cells (g : Tetris) :
  wf g ->
  (occupiedCount (fst (clearLines g))
   + Z.to_nat (snd (clearLines g)) * Z.to_nat (cols g))%nat
  = occupiedCount g.
Proof. apply clear_removes_cells. Qed.

(** X8: on a board with a column, a second [clearLines] finds nothing: it
    returns 0 and the board the first call left. *)
Theorem clearLines_twice (g : Tetris) :
  wf g -> 0 < cols g ->
  clearLines (fst (clearLines g)) = (fst (clearLines g), 0).
Proof.
  intros Hwf Hc. apply clearLines_none. by apply clearLines_no_full_rows.
Qed.

Lemma newTetris_no_full_rows (r c : Z) :
  0 <= r -> 0 < c -> fullRows (newTetris r c) = [].
Proof.
  intros Hr Hc.
  destruct (fullRows (newTetris r c)) as [|yy l] eqn:E; [done|exfalso].
  assert (yy ∈ fullRows (newTetris r c)) as Hin by (rewrite E; left).
  apply elem_of_fullRows in Hin. destruct Hin as [Hy Hfull].
  simpl in Hy. unfold rowFull in Hfull. simpl in Hfull.
  rewrite seqZ_cons in Hfull by done. simpl in Hfull.
  rewrite lookup_total_replicate_2 in Hfull by nia. done.
Qed.

(** X9: a fresh board of any height and of at least one column has no full
    row: [clearLines] returns 0 and leaves it as it is.  With no column at
    all every row counts as full, and [clearLines] returns the height. *)
Theorem clearLines_fresh_board (r c : Z) :
  0 <= r ->
  (0 < c -> clearLines (newTetris r c) = (newTetris r c, 0)) /\
  (c = 0 -> snd (clearLines (newTetris r c)) = r).
Proof.
  intros Hr. split.
  - intros Hc. apply clearLines_none. by apply newTetris_no_full_rows.
  - intros ->. rewrite clearLines_count.
    assert (fullRows (newTetris r 0) = seqZ 0 r) as ->.
    { unfold fullRows. simpl.
      induction (seqZ 0 r) as [|a l IH]; simpl; [done|]. by rewrite IH. }
    rewrite length_seqZ. lia.
Qed.

(** ** The ghost *)

(** The loop stops at the first position, going down, that collides. *)
Lemma hardDropLoop_path (fuel : nat) (g : Tetris) (t t' : Tetromino) :
  hardDropLoop fuel g t = Ret t' ->
  exists k, t' = move t (down k) /\
    checkCollision g t' = true /\
    forall j, (j < k)%nat -> checkCollision g (move t (down j)) = false.
Proof.
  revert t. induction fuel as [|fuel IH]; intros t; simpl;
    destruct (checkCollision g t) eqn:E; try done.
  - intros [= <-]. exists 0%nat. rewrite move_zero.
    split; [done|]. split; [done|]. intros j Hj. lia.
  - intros [= <-]. exists 0%nat. rewrite move_zero.
    split; [done|]. split; [done|]. intros j Hj. lia.
  - intros Hrun. destruct (IH _ Hrun) as (k & -> & Hhit & Hfree).
    exists (S k). rewrite move_move in *.
    assert (forall n, padd VEC_DOWN (down n) = down (S n)) as Hd.
    { intros n. unfold padd, down; simpl. f_equal. lia. }
    rewrite Hd in *. split; [done|]. split; [done|].
    intros [|j] Hj; [by rewrite move_zero|].
    specialize (Hfree j ltac:(lia)). by rewrite move_move, Hd in Hfree.
Qed.

Lemma hardDropLoop_hit (fuel : nat) (g : Tetris) (t : Tetromino) :
  checkCollision g t = true -> hardDropLoop fuel g t = Ret t.
Proof. intros H. destruct fuel; simpl; by rewrite H. Qed.

(** X10: the ghost of a free piece is the piece moved straight down by some
    number of rows: every position on the way is free, the next one below
    collides, and the ghost of the ghost is the ghost.  A piece that rests
    already is its own ghost. *)
Theorem getGhost_resting_place
    (fuel : nat) (g : Tetris) (t ghost : Tetromino) :
  checkCollision g t = false ->
  getGhost fuel g t = Ret ghost ->
  (exists k, ghost = move t (down k) /\
     forall j, (j <= k)%nat -> checkCollision g (move t (down j)) = false) /\
  checkCollision g (move ghost VEC_DOWN) = true /\
  (forall fuel', getGhost (S fuel') g ghost = Ret ghost) /\
  (checkCollision g (move t VEC_DOWN) = true -> ghost = t).
Proof.
  intros Hfree. unfold getGhost. rewrite ghostLoop_hardDropLoop.
  destruct (hardDropLoop fuel g t) as [t'| |] eqn:E; simpl; try done.
  intros [= <-].
  destruct (hardDropLoop_rest fuel g t t' Hfree E) as (Hhit & Hrest & Hback & _).
  destruct (hardDropLoop_path fuel g t t' E) as (k & -> & _ & Hpath).
  destruct k as [|k]; [rewrite move_zero in Hhit; congruence|].
  assert (move (move t (down (S k))) (mkPosition 0 (-1)) = move t (down k))
    as Hup.
  { rewrite move_move. f_equal. unfold padd, down; simpl. f_equal. lia. }
  rewrite Hup in *. split; [|split; [|split]].
  - exists k. split; [done|]. intros j Hj.
    destruct (decide (j = k)) as [->|Hne]; [done|]. apply Hpath. lia.
  - by rewrite Hback.
  - intros fuel'. rewrite ghostLoop_hardDropLoop. cbn [hardDropLoop].
    rewrite Hrest, Hback, (hardDropLoop_hit fuel' _ _ Hhit). cbn [bind].
    by rewrite Hup.
  - intros Hbelow. destruct k as [|k]; [apply move_zero|].
    specialize (Hpath 1%nat ltac:(lia)).
    change (down 1) with VEC_DOWN in Hpath. congruence.
Qed.

(** X11: the edges of [getGhost].  On a piece that collides already the loop
    does not run and the result is the piece one row up; on a piece without
    blocks nothing ever collides and the loop does not end, whatever the
    fuel. *)
Theorem getGhost_edges (fuel : nat) (g : Tetris) (t : Tetromino) :
  (checkCollision g t = true ->
   getGhost fuel g t = Ret (move t (mkPosition 0 (-1)))) /\
  (blocks t = [] -> getGhost fuel g t = OutOfFuel).
Proof.
  split.
  - intros Hhit. unfold getGhost. destruct fuel; simpl; by rewrite Hhit.
  - intros Hnil. unfold getGhost.
    assert (forall t0 : Tetromino, blocks t0 = [] ->
              ghostLoop fuel g t0 = OutOfFuel) as H.
    { induction fuel as [|fuel IH]; intros t0 H0; simpl;
        unfold checkCollision; rewrite H0; simpl; [done|].
      apply IH. unfold move; simpl. by rewrite H0. }
    by rewrite H.
Qed.

(** ** Turns of the loop, taken apart *)

Lemma scoring_fields (cleared : Z) (s sc : GameState) :
  scoring cleared s = Ret sc ->
  game sc = game s /\ tetromino sc = tetromino s /\ nextT sc = nextT s /\
  lastDrop sc = lastDrop s /\ gameOver sc = gameOver s /\
  ((cleared <= 0 /\ sc = s) \/
   (0 < cleared /\ exists points,
      lineScores !! Z.to_nat cleared = Some points /\
      score sc = score s + points * level s /\
      totalLines sc = totalLines s + cleared /\
      level sc = Z.quot (totalLines s + cleared) 10 + 1 /\
      dropIntervalMs sc = Z.max 100 (800 - level sc * 50) /\
      highscore sc = (if highscore s <? score sc then score sc
                      else highscore s))).
Proof.
  unfold scoring. destruct (Z.ltb_spec 0 cleared) as [Hpos|Hle].
  - destruct (readLineScore cleared) as [points| |] eqn:E; simpl; try done.
    intros [= <-]. simpl. do 5 (split; [done|]). right. split; [done|].
    exists points. destruct (readLineScore_Ret _ _ E) as [_ Hp]. by repeat split.
  - intros [= <-]. do 5 (split; [done|]). left. by split.
Qed.

Lemma lockEvent_fields (ev : Event) (s s' : GameState) :
  lockEvent ev s = Ret s' ->
  let cl := clearLines (lockTetromino (game s) (tetromino s)) in
  exists sc, scoring (snd cl) s = Ret sc /\
    game s' = fst cl /\ tetromino s' = nextT s /\
    nextT s' = getNewTetromino (randValue ev) /\
    score s' = score sc /\ level s' = level sc /\
    totalLines s' = totalLines sc /\ highscore s' = highscore sc /\
    dropIntervalMs s' = dropIntervalMs sc /\ lastDrop s' = lastDrop s /\
    gameOver s' = (if checkCollision (fst cl) (nextT s) then true
                   else gameOver s).
Proof.
  unfold lockEvent.
  destruct (clearLines (lockTetromino (game s) (tetromino s))) as [g cleared].
  cbv zeta. cbn [fst snd].
  destruct (scoring cleared s) as [sc| |] eqn:E; simpl; try done.
  destruct (scoring_fields cleared s sc E) as (_ & _ & Hn & Hl & Ho & _).
  intros [= <-]. exists sc. simpl. rewrite Hn, Hl, Ho. by repeat split.
Qed.

Lemma gravityPhase_cases (ev : Event) (s s' : GameState) :
  gravityPhase ev s = Ret s' ->
  s' = s \/
  (checkCollision (game s) (move (tetromino s) VEC_DOWN) = false /\
   s' = setLastDrop (clockGravity ev)
          (setTetromino (move (tetromino s) VEC_DOWN) s)) \/
  (gravityDue ev s = true /\
   checkCollision (game s) (move (tetromino s) VEC_DOWN) = true /\
   exists s2, lockEvent ev s = Ret s2 /\
              s' = setLastDrop (clockGravity ev) s2).
Proof.
  unfold gravityPhase. destruct (gravityDue ev s); [|intros [= <-]; by left].
  destruct (checkCollision (game s) (move (tetromino s) VEC_DOWN)) eqn:E;
    cbn [negb].
  - destruct (lockEvent ev s) as [s2| |] eqn:E2; simpl; try done.
    intros [= <-]. right. right. repeat split; eauto.
  - simpl. intros [= <-]. right. left. by split.
Qed.

Lemma iteration_phases (prog : Program) (fuel : nat) (ev : Event)
    (s s' : GameState) :
  iteration prog fuel ev s = Ret s' ->
  exists s1, inputPhase prog fuel ev s = Ret s1 /\ gravityPhase ev s1 = Ret s'.
Proof.
  unfold iteration.
  destruct (inputPhase prog fuel ev s) as [s1| |]; simpl; try done. eauto.
Qed.

Lemma inputPhase_gameOver (prog : Program) (fuel : nat) (ev : Event)
    (s s1 : GameState) :
  inputPhase prog fuel ev s = Ret s1 ->
  (quitPressed prog ev /\ gameOver s1 = true) \/
  (~ quitPressed prog ev /\ gameOver s1 = gameOver s).
Proof.
  unfold inputPhase, quitPressed.
  destruct (key ev) as [ch|] eqn:Hk.
  - destruct (decodeKey prog ch) eqn:Hd; cbn [handleInput];
      try (intros [= <-]; right; split; [intros (c & [= <-] & Hq); congruence
                                        |done]).
    + intros [= <-]. left. split; [eauto|done].
    + unfold hardDrop.
      destruct (hardDropLoop fuel (game s) (tetromino s)); simpl; try done.
      intros [= <-]. right. split; [intros (c & [= <-] & Hq); congruence|done].
  - intros [= <-]. right. split; [intros (c & Hc & _); done|done].
Qed.

(** X12: a turn of the loop ends the game in two ways only: the quit key
    was read, or the piece that has just become active collides with the
    board.  A move, a rotation, a drop or a gravity step never ends it. *)
Theorem game_over_only_by_quit_or_blocked_spawn
    (prog : Program) (fuel : nat) (ev : Event) (s s' : GameState) :
  gameOver s = false ->
  iteration prog fuel ev s = Ret s' ->
  gameOver s' = true ->
  quitPressed prog ev \/
  (tetromino s' = nextT s /\
   checkCollision (game s') (tetromino s') = true).
Proof.
  intros Hover Hrun Hend.
  destruct (iteration_phases prog fuel ev s s' Hrun) as (s1 & H1 & H2).
  destruct (inputPhase_gameOver prog fuel ev s s1 H1) as [[Hq _]|[_ Ho]];
    [by left|].
  rewrite Hover in Ho.
  destruct (gravityPhase_cases ev s1 s' H2)
    as [->|[[_ ->]|(_ & _ & s2 & Hlock & ->)]]; simpl in Hend;
    try congruence.
  destruct (lockEvent_fields ev s1 s2 Hlock)
    as (sc & _ & Hg & Ht & _ & _ & _ & _ & _ & _ & _ & Hgo).
  right. simpl. rewrite Hg, Ht.
  assert (nextT s1 = nextT s) as Hn.
  { unfold inputPhase in H1. destruct (key ev) as [ch|];
      [|by injection H1 as <-].
    destruct (decodeKey prog ch); cbn [handleInput] in H1;
      try (by injection H1 as <-).
    unfold hardDrop in H1.
    destruct (hardDropLoop fuel (game s) (tetromino s)); simpl in H1;
      try done. by injection H1 as <-. }
  rewrite <- Hn. split; [done|].
  rewrite Hend in Hgo.
  destruct (checkCollision (clearLines _).1 (nextT s1)); [done|congruence].
Qed.




(** ** The tally of a game *)

Lemma NoDup_move (t : Tetromino) (d : Position) :
  NoDup (blocks (move t d)) <-> NoDup (blocks t).
Proof.
  unfold move; simpl. split; [apply NoDup_map_inv|].
  apply NoDup_map_NoDup_ForallPairs. intros [ax ay] [bx by_] _ _.
  unfold padd; simpl. intros [= H1 H2]. f_equal; lia.
Qed.

Lemma NoDup_rotate (t : Tetromino) :
  NoDup (blocks t) -> NoDup (blocks (rotate t)).
Proof.
  unfold rotate. destruct (shapeIdx t =? 0); [done|].
  destruct (blocks t) as [|c rest] eqn:E; [by rewrite E|].
  intros Hnd. cbn [blocks].
  apply NoDup_map_NoDup_ForallPairs; [|done].
  intros [ax ay] [bx by_] _ _. unfold rotateBlock; simpl.
  intros [= H1 H2]. f_equal; lia.
Qed.

Lemma hardDropLoop_closed (P : Tetromino -> Prop) (fuel : nat) (g : Tetris)
    (t t' : Tetromino) :
  (forall u d, P u -> P (move u d)) -> P t ->
  hardDropLoop fuel g t = Ret t' -> P t'.
Proof.
  intros Hmove. revert t. induction fuel as [|fuel IH]; intros t Ht; simpl;
    destruct (checkCollision g t); try done; try (by intros [= <-]).
  apply IH. by apply Hmove.
Qed.

(** Whatever moves and rotations keep, the input phase keeps. *)
Lemma inputPhase_piece (P : Tetromino -> Prop) (prog : Program)
    (fuel : nat) (ev : Event) (s s1 : GameState) :
  (forall u d, P u -> P (move u d)) -> (forall u, P u -> P (rotate u)) ->
  P (tetromino s) -> inputPhase prog fuel ev s = Ret s1 ->
  P (tetromino s1).
Proof.
  intros Hmove Hrot Ht. unfold inputPhase.
  destruct (key ev) as [ch|]; [|by intros [= <-]].
  destruct (decodeKey prog ch); cbn [handleInput];
    try (by intros [= <-]);
    try (intros [= <-]; simpl; unfold tryMove;
         destruct (checkCollision _ _); simpl; auto).
  - intros [= <-]; simpl.
    destruct prog; unfold tryRotate, tryRotateLegacy;
      repeat (destruct (checkCollision _ _); simpl; auto).
  - unfold hardDrop.
    destruct (hardDropLoop fuel (game s) (tetromino s)) as [t'| |] eqn:E;
      simpl; try done.
    intros [= <-]; simpl. apply Hmove.
    by apply (hardDropLoop_closed P fuel (game s) (tetromino s)).
Qed.

Lemma getNewTetromino_NoDup (r : N) : NoDup (blocks (getNewTetromino r)).
Proof.
  destruct (getNewTetromino_shape r) as (n & Hn & _ & ->).
  simpl in Hn.
  do 7 (destruct n as [|n];
        [simpl; repeat constructor; simpl; intuition discriminate|]).
  lia.
Qed.

Lemma points_positive (cleared points : Z) :
  0 < cleared -> lineScores !! Z.to_nat cleared = Some points -> 40 <= points.
Proof.
  intros Hpos. destruct (Z.to_nat cleared) as [|[|[|[|[|n]]]]] eqn:E;
    simpl; intros [= <-]; lia.
Qed.

Lemma initial_Tally (f : HighscoreFile) (r1 r2 : N) (c0 : Z) :
  Tally (loadHighscore f) (initialState f r1 r2 c0).
Proof.
  assert (occupiedCount (newTetris (Tag:=Tag) GRID_ROWS GRID_COLS) = 0%nat)
    as Hzero.
  { unfold occupiedCount, newTetris. cbn [grid].
    by rewrite filter_empty_cells. }
  split; cbn [initialState tetromino nextT dropIntervalMs totalLines level
              highscore score game]; try done;
    try apply getNewTetromino_NoDup.
  exists 0%nat. rewrite Hzero. reflexivity.
Qed.

Lemma lockEvent_Tally (hs0 : Z) (ev : Event) (s s' : GameState) :
  Inv hs0 s -> pieceFree s -> Tally hs0 s ->
  lockEvent ev s = Ret s' -> Tally hs0 s'.
Proof.
  intros HI Hfree HT Hlock.
  destruct (lockEvent_fields ev s s' Hlock)
    as (sc & Hsc & Hg & Ht & Hn & Hs & Hl & Htl & Hh & Hd & _ & _).
  destruct (scoring_fields _ s sc Hsc) as (_ & _ & _ & _ & _ & Hcases).
  pose proof (clearLines_count (lockTetromino (game s) (tetromino s))) as Hcnt.
  pose proof (clear_removes_cells (lockTetromino (game s) (tetromino s))
                (lockTetromino_wf _ _ (inv_wf _ _ HI))) as Hcells.
  pose proof (lock_adds_cells (game s) (tetromino s) (inv_wf _ _ HI)
                (tally_piece _ _ HT) Hfree) as Hlocked.
  rewrite (inv_piece _ _ HI) in Hlocked.
  change (cols (lockTetromino (game s) (tetromino s))) with (cols (game s))
    in Hcells.
  rewrite (inv_cols _ _ HI) in Hcells.
  destruct (tally_cells _ _ HT) as [pieces Hpieces].
  pose proof (level_positive (totalLines s) (inv_lines _ _ HI)) as Hlev.
  rewrite <- (inv_level _ _ HI) in Hlev.
  pose proof (inv_score _ _ HI) as Hscore.
  pose proof (inv_lines _ _ HI) as Hlines.
  split.
  - rewrite Ht. apply (tally_next _ _ HT).
  - rewrite Hn. apply getNewTetromino_NoDup.
  - rewrite Hd, Htl, Hl.
    destruct Hcases as [[_ ->]|(Hpos & points & _ & _ & -> & _ & -> & _)].
    + apply (tally_interval _ _ HT).
    + destruct (Z.eqb_spec (totalLines s + snd (clearLines
                  (lockTetromino (game s) (tetromino s)))) 0); [lia|done].
  - rewrite Hh, Hs.
    destruct Hcases as [[_ ->]|(Hpos & points & Hp & -> & _ & _ & _ & ->)].
    + apply (tally_highscore _ _ HT).
    + pose proof (points_positive _ _ Hpos Hp).
      assert (score s < score s + points * level s) by nia.
      pose proof (tally_highscore _ _ HT) as Hhs.
      destruct (Z.eqb_spec (score s + points * level s) 0); [lia|].
      destruct (Z.eqb_spec (score s) 0);
        destruct (Z.ltb_spec (highscore s) (score s + points * level s));
        lia.
  - exists (S pieces). rewrite Hg, Htl. unfold GRID_COLS in *.
    destruct Hcases as [[Hle ->]|(Hpos & points & _ & _ & -> & _)]; lia.
Qed.

Lemma iteration_Tally (prog : Program) (fuel : nat) (ev : Event) (hs0 : Z)
    (s s' : GameState) :
  Inv hs0 s -> pieceFree s -> Tally hs0 s ->
  iteration prog fuel ev s = Ret s' -> Tally hs0 s'.
Proof.
  intros HI Hfree HT Hrun.
  destruct (iteration_phases prog fuel ev s s' Hrun) as (s1 & H1 & H2).
  destruct (inputPhase_Inv prog fuel ev hs0 s s1 HI Hfree H1) as [HI1 Hf1].
  destruct (inputPhase_keeps prog fuel ev s s1 Hfree H1)
    as (_ & _ & E1 & E2 & E3 & E4 & E5 & E6 & E7).
  assert (Tally hs0 s1) as HT1.
  { destruct HT. split; rewrite ?E1, ?E2, ?E3, ?E4, ?E5, ?E6, ?E7; try done.
    apply (inputPhase_piece (fun u => NoDup (blocks u)) prog fuel ev s s1);
      try done.
    - intros u d. apply NoDup_move.
    - apply NoDup_rotate. }
  destruct (gravityPhase_cases ev s1 s' H2)
    as [->|[[_ ->]|(_ & _ & s2 & Hlock & ->)]]; [done|..].
  - destruct HT1. split; try done. cbn [tetromino setLastDrop setTetromino].
    by apply NoDup_move.
  - pose proof (lockEvent_Tally hs0 ev s1 s2 HI1 Hf1 HT1 Hlock) as HT2.
    destruct HT2. by split.
Qed.

Lemma reachable_Tally (prog : Program) (f : HighscoreFile) (s : GameState) :
  reachable prog f s -> Tally (loadHighscore f) s.
Proof.
  induction 1 as [r1 r2 c0|s s' ev fuel Hreach HT Hover Hstep].
  - apply initial_Tally.
  - destruct (reachable_Inv prog f s Hreach) as [HI Hfree].
    by apply (iteration_Tally prog fuel ev _ s s' HI (Hfree Hover)).
Qed.



(** X16: in every state of a game the level is one more than the tens of
    the lines; the drop interval is 800 ms until a line is cleared, and
    from then on 800 less 50 per level, not below 100: a first level at 750
    after the first line, and 100 from 130 lines on. *)
Theorem speed_follows_the_lines
    (prog : Program) (f : HighscoreFile) (s : GameState) :
  reachable prog f s ->
  0 <= totalLines s /\
  level s = Z.quot (totalLines s) 10 + 1 /\
  dropIntervalMs s =
    (if totalLines s =? 0 then 800 else Z.max 100 (800 - level s * 50)) /\
  (0 < totalLines s < 10 -> dropIntervalMs s = 750) /\
  (130 <= totalLines s -> dropIntervalMs s = 100).
Proof.
  intros Hreach.
  destruct (reachable_Inv prog f s Hreach) as [HI _].
  pose proof (tally_interval _ _ (reachable_Tally prog f s Hreach)) as Hd.
  pose proof (inv_level _ _ HI) as Hl. pose proof (inv_lines _ _ HI) as Ht.
  split; [done|]. split; [done|]. split; [done|].
  rewrite Hd, Hl. split; intros Hrange.
  - destruct (Z.eqb_spec (totalLines s) 0); [lia|].
    rewrite Z.quot_small by lia. reflexivity.
  - destruct (Z.eqb_spec (totalLines s) 0); [lia|].
    assert (13 <= Z.quot (totalLines s) 10).
    { rewrite Z.quot_div_nonneg by lia. apply Z.div_le_lower_bound; lia. }
    lia.
Qed.


(** ** New pieces *)

(** X18: whatever [rand()] gives, [getNewTetromino] reads [shapes] inside
    its seven entries; the piece has the index as [shapeIdx] and the tag of
    that index, four blocks on four different cells of columns 3 to 6 and
    rows 0 and 1, and it is free on an empty board. *)
Theorem getNewTetromino_in_table (r : N) :
  let t := getNewTetromino r in
  0 <= shapeIdx t < 7 /\
  shapeIdx t = Z.rem (Z.of_N r) 7 /\
  shapes !! Z.to_nat (shapeIdx t) = Some (blocks t) /\
  colorPair t = pieceTag (shapeIdx t) /\
  length (blocks t) = 4%nat /\ NoDup (blocks t) /\
  Forall (fun b => 3 <= x b <= 6 /\ 0 <= y b <= 1) (blocks t) /\
  checkCollision (newTetris GRID_ROWS GRID_COLS) t = false.
Proof.
  cbv zeta.
  destruct (getNewTetromino_spawn r) as [Hlen Hfree].
  pose proof (getNewTetromino_NoDup r) as Hnd.
  destruct (getNewTetromino_shape r) as (n & Hn & Hrem & E).
  rewrite E in *. cbn [shapeIdx blocks colorPair]. simpl in Hn, Hrem.
  split; [lia|]. split; [symmetry; exact Hrem|]. rewrite Nat2Z.id.
  split.
  { destruct (lookup_lt_is_Some_2 shapes n Hn) as [bs Hbs].
    by rewrite (list_lookup_total_correct _ _ _ Hbs). }
  do 3 (split; [done|]). split; [|done].
  do 7 (destruct n as [|n]; [simpl; repeat constructor; simpl; lia|]).
  simpl in Hn. lia.
Qed.

(** ** The file over the sessions *)



End Engine.

(** * Drawing *)

Section Drawing.

Implicit Types s t a b code : list ascii.

Lemma stripFrom_no_escape (inEscape : bool) s : ~ In ESC (stripFrom inEscape s).
Proof.
  revert inEscape. induction s as [|c s IH]; intros inEscape; simpl;
    [tauto|].
  destruct inEscape.
  - destruct (Ascii.eqb c "m"); apply IH.
  - destruct (Ascii.eqb_spec c ESC) as [->|Hne]; [apply IH|].
    simpl. intros [H|H]; [done|]. by apply (IH false).
Qed.

Lemma stripFrom_plain s : ~ In ESC s -> stripFrom false s = s.
Proof.
  induction s as [|c s IH]; simpl; [done|]. intros Hno.
  destruct (Ascii.eqb_spec c ESC) as [->|Hne]; [tauto|].
  f_equal. apply IH. tauto.
Qed.

Lemma endsInEscape_plain s : ~ In ESC s -> endsInEscape false s = false.
Proof.
  induction s as [|c s IH]; simpl; [done|]. intros Hno.
  destruct (Ascii.eqb_spec c ESC) as [->|Hne]; [tauto|]. apply IH. tauto.
Qed.

Lemma stripFrom_app (inEscape : bool) s t :
  stripFrom inEscape (s ++ t)
  = stripFrom inEscape s ++ stripFrom (endsInEscape inEscape s) t.
Proof.
  revert inEscape. induction s as [|c s IH]; intros inEscape; simpl; [done|].
  destruct inEscape.
  - destruct (Ascii.eqb c "m"); apply IH.
  - destruct (Ascii.eqb c ESC); [apply IH|]. simpl. f_equal. apply IH.
Qed.

Lemma endsInEscape_app (inEscape : bool) s t :
  endsInEscape inEscape (s ++ t)
  = endsInEscape (endsInEscape inEscape s) t.
Proof.
  revert inEscape. induction s as [|c s IH]; intros inEscape; simpl; [done|].
  destruct inEscape.
  - destruct (Ascii.eqb c "m"); apply IH.
  - destruct (Ascii.eqb c ESC); apply IH.
Qed.

Lemma length_stripFrom (inEscape : bool) s :
  (length (stripFrom inEscape s) <= length s)%nat.
Proof.
  revert inEscape. induction s as [|c s IH]; intros inEscape; simpl; [lia|].
  destruct inEscape.
  - destruct (Ascii.eqb c "m"); [specialize (IH false)|specialize (IH true)];
      lia.
  - destruct (Ascii.eqb c ESC); [specialize (IH true)|specialize (IH false)];
      simpl; lia.
Qed.

(** Inside an escape sequence everything up to the first ['m'] is dropped. *)
Lemma stripFrom_escape code s :
  ~ In "m"%char code ->
  stripFrom true (code ++ "m"%char :: s) = stripFrom false s /\
  endsInEscape true (code ++ "m"%char :: s) = endsInEscape false s /\
  stripFrom true code = [] /\ endsInEscape true code = true.
Proof.
  induction code as [|c code IH]; simpl.
  - intros _. done.
  - intros Hno. destruct (Ascii.eqb_spec c "m") as [->|Hne]; [tauto|].
    apply IH. tauto.
Qed.

(** X20: [stripAnsi] leaves no escape character, never makes the text
    longer, changes nothing in a text without escape character, and so does
    nothing when applied twice; an escape sequence that no ['m'] ends takes
    the rest of the text with it. *)
Theorem stripAnsi_strips s :
  ~ In ESC (stripAnsi s) /\
  (length (stripAnsi s) <= length s)%nat /\
  (~ In ESC s -> stripAnsi s = s) /\
  stripAnsi (stripAnsi s) = stripAnsi s /\
  (forall a b, ~ In ESC a -> ~ In "m"%char b ->
     stripAnsi (a ++ ESC :: b) = a).
Proof.
  unfold stripAnsi. split; [apply stripFrom_no_escape|].
  split; [apply length_stripFrom|]. split; [apply stripFrom_plain|].
  split; [apply stripFrom_plain, stripFrom_no_escape|].
  intros a b Ha Hb. rewrite stripFrom_app, (stripFrom_plain a Ha).
  rewrite (endsInEscape_plain a Ha). cbn [stripFrom].
  rewrite Ascii.eqb_refl.
  destruct (stripFrom_escape b [] Hb) as (_ & _ & -> & _).
  by rewrite app_nil_r.
Qed.

(** X21: an escape sequence, from the escape character to its first ['m'],
    is invisible where it stands: it adds nothing to the visible length, and
    a text between a colour and a reset has the visible length of the
    text. *)
Theorem visibleLen_ignores_colours a code b :
  endsInEscape false a = false -> ~ In "m"%char code ->
  stripAnsi (a ++ ESC :: code ++ "m"%char :: b) = stripAnsi a ++ stripAnsi b /\
  visibleLen (a ++ ESC :: code ++ "m"%char :: b)
  = (visibleLen a + visibleLen b)%nat /\
  (forall text reset, ~ In ESC text -> ~ In ESC a -> ~ In "m"%char reset ->
     b = text ++ ESC :: reset ++ ["m"%char] ->
     visibleLen (a ++ ESC :: code ++ "m"%char :: b)
     = (length a + length text)%nat).
Proof.
  intros Ha Hcode.
  assert (stripAnsi (a ++ ESC :: code ++ "m"%char :: b)
          = stripAnsi a ++ stripAnsi b) as E.
  { unfold stripAnsi. rewrite stripFrom_app, Ha. cbn [stripFrom].
    rewrite Ascii.eqb_refl.
    by destruct (stripFrom_escape code b Hcode) as (-> & _). }
  split; [done|]. unfold visibleLen. rewrite E, length_app.
  split; [done|]. intros text reset Htext Hplain Hreset ->.
  unfold stripAnsi at 2. rewrite stripFrom_app, (stripFrom_plain text Htext).
  rewrite (endsInEscape_plain text Htext). cbn [stripFrom].
  rewrite Ascii.eqb_refl.
  destruct (stripFrom_escape reset [] Hreset) as (-> & _).
  cbn [stripFrom]. rewrite app_nil_r. unfold stripAnsi.
  by rewrite (stripFrom_plain a Hplain).
Qed.

Lemma spaces_plain (n : nat) : ~ In ESC (spaces n).
Proof.
  unfold spaces. induction n as [|n IH]; simpl; [tauto|].
  intros [H|H]; [discriminate H|tauto].
Qed.

Lemma visibleLen_plain s : ~ In ESC s -> visibleLen s = length s.
Proof. intros H. unfold visibleLen, stripAnsi. by rewrite stripFrom_plain. Qed.

Lemma take_plain (n : nat) s : ~ In ESC s -> ~ In ESC (take n s).
Proof.
  intros H Hin. apply H. rewrite <- (take_drop n s). apply in_or_app. by left.
Qed.

(** X22: the lines of the side panel all have the visible width of the
    panel, and [setUi] keeps that for a text whose escape sequences are all
    ended: it pads a short text and cuts a long one, colours removed, to
    that width.  It touches no other line, and does nothing without a panel
    or for a row outside the board. *)
Theorem setUi_keeps_the_width
    (rows panelW : Z) (ui : list (list ascii)) (row : Z) s :
  Forall (fun l => visibleLen l = Z.to_nat panelW) ui ->
  endsInEscape false s = false ->
  Forall (fun l => visibleLen l = Z.to_nat panelW)
         (setUi rows panelW ui row s) /\
  Forall (fun l => visibleLen l = Z.to_nat panelW) (initialUi rows panelW) /\
  length (setUi rows panelW ui row s) = length ui /\
  (forall i, i <> Z.to_nat row ->
     setUi rows panelW ui row s !! i = ui !! i) /\
  (panelW <= 0 \/ row < 0 \/ rows <= row -> setUi rows panelW ui row s = ui).
Proof.
  intros Hui Hs. split; [|split; [|split; [|split]]].
  - unfold setUi. destruct (Z.leb_spec panelW 0); [done|].
    destruct ((row <? 0) || (rows <=? row)); [done|]. cbv zeta.
    destruct (Nat.leb_spec (Z.to_nat panelW) (visibleLen s)) as [Hge|Hlt];
      apply Forall_insert; try done.
    + rewrite visibleLen_plain
        by (apply take_plain, stripFrom_no_escape).
      rewrite length_take. unfold visibleLen in Hge. lia.
    + unfold visibleLen, stripAnsi. rewrite stripFrom_app, Hs.
      rewrite (stripFrom_plain _ (spaces_plain _)), length_app.
      unfold spaces at 1. rewrite length_replicate.
      unfold visibleLen, stripAnsi in Hlt. lia.
  - unfold initialUi. apply Forall_replicate.
    rewrite (visibleLen_plain _ (spaces_plain _)). unfold spaces.
    rewrite length_replicate. lia.
  - unfold setUi. destruct (panelW <=? 0); [done|].
    destruct ((row <? 0) || (rows <=? row)); [done|]. cbv zeta.
    destruct (Z.to_nat panelW <=? visibleLen s)%nat; apply length_insert.
  - intros i Hi. unfold setUi. destruct (panelW <=? 0); [done|].
    destruct ((row <? 0) || (rows <=? row)); [done|]. cbv zeta.
    destruct (Z.to_nat panelW <=? visibleLen s)%nat;
      by apply list_lookup_insert_ne.
  - intros Hout. unfold setUi.
    destruct (Z.leb_spec panelW 0); [done|].
    destruct (Z.ltb_spec row 0); [done|].
    destruct (Z.leb_spec rows row); [done|]. lia.
Qed.

Lemma take_padded (n : nat) s :
  take n (s ++ spaces n)
  = (if (n <? length s)%nat then take n s else s ++ spaces (n - length s)).
Proof.
  destruct (Nat.ltb_spec n (length s)) as [Hlt|Hge].
  - by rewrite take_app_le by lia.
  - rewrite take_app_ge by lia. f_equal. unfold spaces.
    by rewrite take_replicate, Nat.min_l by lia.
Qed.

(** X23: a line of a stacked panel is exactly as wide as the inside of the
    box: [fmt] gives the first [innerW] characters of the text without its
    colours, followed by spaces, and [line] those of the text as it is. *)
Theorem stacked_lines_fill_the_box (W : Z) s :
  0 <= W ->
  length (fmt W s) = Z.to_nat W /\
  fmt W s = take (Z.to_nat W) (stripAnsi s ++ spaces (Z.to_nat W)) /\
  ~ In ESC (fmt W s) /\
  length (line W s) = Z.to_nat W /\
  line W s = take (Z.to_nat W) (s ++ spaces (Z.to_nat W)).
Proof.
  intros HW.
  assert (fmt W s = take (Z.to_nat W) (stripAnsi s ++ spaces (Z.to_nat W)))
    as Efmt.
  { unfold fmt. rewrite take_padded.
    destruct (Z.ltb_spec W (Z.of_nat (length (stripAnsi s))));
      destruct (Nat.ltb_spec (Z.to_nat W) (length (stripAnsi s))); try lia.
    - rewrite length_take, Nat.min_l by lia.
      replace (Z.to_nat (W - Z.of_nat (Z.to_nat W))) with 0%nat by lia.
      simpl. by rewrite app_nil_r.
    - f_equal. f_equal. lia. }
  assert (line W s = take (Z.to_nat W) (s ++ spaces (Z.to_nat W))) as Eline.
  { unfold line. rewrite take_padded.
    destruct (Z.ltb_spec W (Z.of_nat (length s)));
      destruct (Nat.ltb_spec (Z.to_nat W) (length s)); try lia.
    - rewrite length_take, Nat.min_l by lia.
      destruct (Z.ltb_spec (Z.of_nat (Z.to_nat W)) W); [lia|].
      rewrite take_take. f_equal. lia.
    - destruct (Z.ltb_spec (Z.of_nat (length s)) W).
      + rewrite take_ge.
        * do 2 f_equal. lia.
        * rewrite length_app. unfold spaces. rewrite length_replicate. lia.
      + rewrite take_ge by lia.
        replace (Z.to_nat W - length s)%nat with 0%nat by lia.
        simpl. by rewrite app_nil_r. }
  assert (forall u, length (take (Z.to_nat W) (u ++ spaces (Z.to_nat W)))
                    = Z.to_nat W) as Hlen.
  { intros u. rewrite length_take, length_app. unfold spaces.
    rewrite length_replicate. lia. }
  split; [by rewrite Efmt|]. split; [done|].
  split; [|split; [by rewrite Eline|done]].
  rewrite Efmt. apply take_plain. intros Hin.
  apply in_app_or in Hin. destruct Hin as [Hin|Hin].
  - by apply (stripFrom_no_escape false s).
  - by apply (spaces_plain (Z.to_nat W)).
Qed.

(** X24: the side panel of [render] is between 0 and 18 columns wide; on a
    terminal of known width a grid line with its panel fits the terminal,
    and the panel is dropped, for the stacked one, exactly when the terminal
    has at most two columns more than the grid; when the width is unknown
    the panel has its 18 columns. *)
Theorem panelWidth_fits (cols termCols : Z) :
  0 <= panelWidth cols termCols <= DEFAULT_PANEL_W /\
  (0 < termCols -> 0 < panelWidth cols termCols ->
   (cols * CELL_W + 2) + 2 + panelWidth cols termCols <= termCols) /\
  (panelWidth cols termCols = 0 <->
   0 < termCols <= cols * CELL_W + 2 + 2) /\
  (termCols <= 0 -> panelWidth cols termCols = DEFAULT_PANEL_W).
Proof.
  unfold panelWidth, DEFAULT_PANEL_W, CELL_W.
  destruct (Z.ltb_spec 0 termCols);
    destruct (Z.leb_spec (termCols - (cols * 3 + 2) - 2) 0); lia.
Qed.

(** ** The layout *)

Lemma quot_two (a : Z) : 0 <= a -> 2 * Z.quot a 2 <= a <= 2 * Z.quot a 2 + 1.
Proof.
  intros Ha. pose proof (Z.quot_rem' a 2).
  pose proof (Z.rem_bound_pos a 2 Ha ltac:(lia)). lia.
Qed.

Lemma quot_two_neg (a : Z) : a <= 0 -> Z.quot a 2 <= 0.
Proof.
  intros Ha. pose proof (Z.quot_pos (- a) 2 ltac:(lia) ltac:(lia)) as H.
  rewrite Z.quot_opp_l in H by lia. lia.
Qed.

(** X25: [renderFrame] shows the side panel exactly when the terminal has
    room for the grid, a gap of two columns and 18 columns of panel.  Then
    the grid window and the panel window lie side by side, the gap between
    them, inside the width of the terminal, and the view is centred, the
    right margin being the left one or one column more.  Otherwise the
    stacked window lies right under the grid window, with its width. *)
Theorem layout_places_the_windows (rows cols termRows termCols : Z) :
  let l := layout rows cols termRows termCols in
  let gw := gridWin l in
  0 <= cols -> 0 <= rows ->
  (sidePanel l = true <-> cols * CELL_W + 2 + 2 + 18 <= termCols) /\
  winW gw = cols * CELL_W + 2 /\ winH gw = rows + 2 /\
  winX gw = originX l /\ winY gw = originY l + 1 /\ 0 <= originX l /\
  0 <= originY l /\
  (sidePanel l = true ->
     exists pw, panelWin l = Some pw /\ stackedWin l = None /\
       winW pw = 18 /\ winH pw = winH gw /\ winY pw = winY gw /\
       winX pw = winX gw + winW gw + 2 /\
       winX pw + winW pw <= termCols /\
       originX l <= termCols - (winX pw + winW pw) <= originX l + 1) /\
  (sidePanel l = false ->
     exists sw, stackedWin l = Some sw /\ panelWin l = None /\
       winW sw = winW gw /\ winX sw = winX gw /\ winH sw = 18 /\
       winY sw = winY gw + winH gw /\
       (winW gw <= termCols ->
        winX gw + winW gw <= termCols /\
        originX l <= termCols - (winX gw + winW gw) <= originX l + 1)) /\
  (viewH l <= termRows ->
     originY l + viewH l <= termRows /\
     originY l <= termRows - (originY l + viewH l) <= originY l + 1) /\
  (termRows < viewH l -> originY l = 0).
Proof.
  intros l gw Hc Hr. subst l gw. unfold layout, CELL_W, titleSize.
  cbv zeta. cbn [sidePanel gridWin panelWin stackedWin originX originY viewH
                 winW winH winX winY].
  destruct (Z.leb_spec (cols * 3 + 2 + 2 + 18) termCols) as [Hside|Hside].
  - pose proof (quot_two (termCols - (cols * 3 + 2 + 2 + 18)) ltac:(lia)).
    split; [split; [lia|done]|]. do 6 (split; [lia|]).
    split; [|split; [done|]].
    + intros _. eexists. split; [reflexivity|]. split; [done|].
      cbn [winW winH winX winY]. lia.
    + destruct (Z.le_gt_cases (1 + (rows + 2)) termRows) as [Hv|Hv].
      * pose proof (quot_two (termRows - (1 + (rows + 2))) ltac:(lia)).
        split; intros; lia.
      * pose proof (quot_two_neg (termRows - (1 + (rows + 2))) ltac:(lia)).
        split; intros; lia.
  - split; [split; [done|lia]|]. do 4 (split; [lia|]).
    split; [lia|]. split; [lia|]. split; [done|]. split.
    + intros _. eexists. split; [reflexivity|]. split; [done|].
      cbn [winW winH winX winY]. do 4 (split; [lia|]).
      intros Hfit. pose proof (quot_two (termCols - (cols * 3 + 2)) ltac:(lia)).
      lia.
    + destruct (Z.le_gt_cases (1 + (rows + 2) + (2 + 16)) termRows)
        as [Hv|Hv].
      * pose proof (quot_two (termRows - (1 + (rows + 2) + (2 + 16)))
                      ltac:(lia)).
        split; intros; lia.
      * pose proof (quot_two_neg (termRows - (1 + (rows + 2) + (2 + 16)))
                      ltac:(lia)).
        split; intros; lia.
Qed.

(** ** Tables *)

Lemma set2_rectangular {A : Type} `{Inhabited A} (R C : Z)
    (m : list (list A)) (yy xx : Z) (v : A) :
  rectangular R C m -> rectangular R C (set2 m yy xx v).
Proof.
  intros [Hlen Hall]. unfold set2. split; [by rewrite length_insert|].
  destruct (decide (Z.to_nat yy < length m)%nat) as [Hlt|Hge].
  - apply Forall_insert; [done|]. rewrite length_insert.
    destruct (lookup_lt_is_Some_2 m _ Hlt) as [r Hr].
    rewrite (list_lookup_total_correct _ _ _ Hr).
    rewrite Forall_forall in Hall. apply Hall.
    apply list_elem_of_In. by apply list_elem_of_lookup_2 in Hr.
  - by rewrite list_insert_ge by lia.
Qed.

Lemma row_length {A : Type} `{Inhabited A} (R C : Z) (m : list (list A))
    (yy : Z) :
  rectangular R C m -> 0 <= yy < R ->
  length (m !!! Z.to_nat yy) = Z.to_nat C.
Proof.
  intros [Hlen Hall] Hy.
  destruct (lookup_lt_is_Some_2 m (Z.to_nat yy) ltac:(lia)) as [r Hr].
  rewrite (list_lookup_total_correct _ _ _ Hr).
  rewrite Forall_forall in Hall. apply Hall.
  apply list_elem_of_In. by apply list_elem_of_lookup_2 in Hr.
Qed.

Lemma get2_set2 {A : Type} `{Inhabited A} (R C : Z) (m : list (list A))
    (yy xx y' x' : Z) (v : A) :
  rectangular R C m -> 0 <= yy < R -> 0 <= xx < C ->
  0 <= y' -> 0 <= x' ->
  get2 (set2 m yy xx v) y' x'
  = (if decide (y' = yy /\ x' = xx) then v else get2 m y' x').
Proof.
  intros Hrect Hy Hx Hy' Hx'. pose proof Hrect as [Hlen _].
  pose proof (row_length R C m yy Hrect Hy) as Hrow.
  unfold get2, set2.
  destruct (decide (y' = yy)) as [->|Hne].
  - rewrite list_lookup_total_insert_eq by lia.
    destruct (decide (x' = xx)) as [->|Hnx].
    + rewrite list_lookup_total_insert_eq by lia.
      by rewrite decide_True.
    + rewrite list_lookup_total_insert_ne by lia.
      rewrite decide_False by tauto. done.
  - rewrite list_lookup_total_insert_ne by lia.
    rewrite decide_False by tauto. done.
Qed.

Lemma table_rectangular {A : Type} (R C : Z) (v : A) :
  rectangular R C (table R C v).
Proof.
  unfold table. split; [apply length_replicate|].
  apply Forall_replicate, length_replicate.
Qed.

Lemma get2_table {A : Type} `{Inhabited A} (R C yy xx : Z) (v : A) :
  0 <= yy < R -> 0 <= xx < C -> get2 (table R C v) yy xx = v.
Proof.
  intros Hy Hx. unfold get2, table.
  rewrite !lookup_total_replicate_2 by lia. done.
Qed.

End Drawing.

Section Cells.

Context {Tag : Type} {tags : TagOps Tag}.

Local Abbreviation Tetromino := (@Tetromino Tag) (only parsing).
Local Abbreviation Tetris := (@Tetris Tag) (only parsing).

(** A loop over the blocks of a piece that writes [v] at each block [cond]
    accepts: a cell inside the board holds [v] if such a block lies on it,
    and what it held otherwise. *)
Lemma blockPass_get2 {A : Type} `{Inhabited A} (g : Tetris)
    (cond : Position -> bool) (v : A) (bs : list Position)
    (m : list (list A)) (p : Position) :
  rectangular (rows g) (cols g) m ->
  (forall b, cond b = true -> isInside g b = true) ->
  isInside g p = true ->
  rectangular (rows g) (cols g)
    (fold_left (fun d b => if cond b then set2 d (y b) (x b) v else d) bs m)
  /\
  get2 (fold_left (fun d b => if cond b then set2 d (y b) (x b) v else d)
                  bs m) (y p) (x p)
  = (if existsb (fun b => cond b && bool_decide (b = p)) bs then v
     else get2 m (y p) (x p)).
Proof.
  intros Hrect Hcond Hp. apply isInside_true in Hp.
  revert m Hrect. induction bs as [|b bs IH]; intros m Hrect; simpl;
    [done|].
  destruct (cond b) eqn:Hb; simpl.
  - pose proof (Hcond b Hb) as Hin. apply isInside_true in Hin.
    destruct (IH (set2 m (y b) (x b) v)
                 (set2_rectangular _ _ m _ _ v Hrect)) as [Hr ->].
    split; [done|].
    rewrite (get2_set2 (rows g) (cols g)) by (done || lia).
    destruct (existsb _ bs); [by rewrite orb_true_r|].
    rewrite orb_false_r.
    destruct (decide (b = p)) as [->|Hne].
    + rewrite bool_decide_eq_true_2 by done. by rewrite decide_True.
    + rewrite bool_decide_eq_false_2 by done.
      rewrite decide_False; [done|].
      intros [Hy Hx]. apply Hne. destruct b, p; simpl in *. by subst.
  - by apply IH.
Qed.

Lemma existsb_inside_block (g : Tetris) (bs : list Position) (p : Position) :
  isInside g p = true ->
  existsb (fun b => isInside g b && bool_decide (b = p)) bs
  = bool_decide (p ∈ bs).
Proof.
  intros Hp. apply eq_true_iff_eq. rewrite existsb_exists, bool_decide_eq_true.
  rewrite list_elem_of_In. split.
  - intros (b & Hb & Hc). apply andb_true_iff in Hc. destruct Hc as [_ Hc].
    apply bool_decide_eq_true in Hc. by subst.
  - intros Hin. exists p. split; [done|]. rewrite Hp.
    by rewrite bool_decide_eq_true_2.
Qed.

Lemma pieceMask_lookup (g : Tetris) (t : Tetromino)
    (xx yy : Z) :
  0 <= xx < cols g -> 0 <= yy < rows g ->
  get2 (pieceMask g t) yy xx = bool_decide (mkPosition xx yy ∈ blocks t) /\
  rectangular (rows g) (cols g) (pieceMask g t).
Proof.
  intros Hx Hy. set (p := mkPosition xx yy).
  assert (isInside g p = true) as Hp by (apply isInside_true; simpl; lia).
  unfold pieceMask.
  destruct (blockPass_get2 g (isInside g) true (blocks t)
              (table (rows g) (cols g) false) p
              (table_rectangular _ _ _) (fun b Hb => Hb) Hp) as [Hr Hg].
  split; [|done]. change yy with (y p). change xx with (x p).
  rewrite Hg, existsb_inside_block by done.
  rewrite get2_table by (simpl; lia). by destruct (bool_decide _).
Qed.

(** X26: a mask of [renderFrame] is a table of the size of the board, and
    inside the board it is true exactly on the cells a block of the piece
    lies on. *)
Theorem pieceMask_marks_the_blocks (g : Tetris) (t : Tetromino) :
  rectangular (rows g) (cols g) (pieceMask g t) /\
  forall xx yy, 0 <= xx < cols g -> 0 <= yy < rows g ->
    get2 (pieceMask g t) yy xx = bool_decide (mkPosition xx yy ∈ blocks t).
Proof.
  split.
  - unfold pieceMask.
    assert (forall bs m, rectangular (rows g) (cols g) m ->
      rectangular (rows g) (cols g)
        (fold_left (fun mask b => if isInside g b
                                  then set2 mask (y b) (x b) true else mask)
                   bs m)) as Hrect.
    { induction bs as [|b bs IH]; intros m Hm; simpl; [done|].
      apply IH. destruct (isInside g b); [|done].
      by apply set2_rectangular. }
    apply Hrect, table_rectangular.
  - intros xx yy Hx Hy. by apply pieceMask_lookup.
Qed.

End Cells.

(** ** The cells of the two programs *)

Section CursesCells.

(** X27: a cell of the grid [renderFrame] draws shows, in this order of
    precedence: the current piece, in its colour and bold, where one of its
    blocks lies; a locked cell, in its own colour and bold; the ghost, dim,
    on a free cell under one of its blocks; and the empty mark. *)
Theorem renderGrid_draws
    (fuel : nat) (g : @Tetris Z) (current : @Tetromino Z)
    (cells : list (list CellDraw)) :
  renderGrid fuel g current = Ret cells ->
  exists ghost,
    getGhost fuel g current = Ret ghost /\
    rectangular (rows g) (cols g) cells /\
    forall xx yy, 0 <= xx < cols g -> 0 <= yy < rows g ->
      let p := mkPosition xx yy in
      get2 cells yy xx =
        if bool_decide (p ∈ blocks current)
        then mkCellDraw BLOCK (colorPair current) A_BOLD
        else if occupied (cellAt g p)
        then mkCellDraw BLOCK (cellColor (cellAt g p)) A_BOLD
        else if bool_decide (p ∈ blocks ghost)
        then mkCellDraw GHOST PAIR_GHOST A_DIM
        else mkCellDraw CLEAN 0 A_NORMAL.
Proof.
  unfold renderGrid.
  destruct (getGhost fuel g current) as [ghost| |]; simpl; try done.
  intros [= <-]. exists ghost. split; [done|]. split.
  - split; [by rewrite length_map, length_seqZ|].
    apply Forall_forall. intros r Hr. apply in_map_iff in Hr.
    destruct Hr as (yy & <- & _). by rewrite length_map, length_seqZ.
  - intros xx yy Hx Hy. cbv zeta. set (p := mkPosition xx yy). unfold get2.
    assert (forall (B : Type) (f : Z -> B) (n i : Z), 0 <= i < n ->
              map f (seqZ 0 n) !! Z.to_nat i = Some (f i)) as Hmap.
    { intros B f n i Hi. change (map f (seqZ 0 n)) with (f <$> seqZ 0 n).
      rewrite list_lookup_fmap, lookup_seqZ_lt by lia. simpl.
      do 2 f_equal. lia. }
    rewrite (list_lookup_total_correct _ _ _ (Hmap _ _ _ yy Hy)).
    rewrite (list_lookup_total_correct _ _ _ (Hmap _ _ _ xx Hx)).
    unfold drawnCell. fold p.
    destruct (pieceMask_lookup g current xx yy Hx Hy) as [-> _].
    destruct (pieceMask_lookup g ghost xx yy Hx Hy) as [-> _].
    fold p.
    destruct (bool_decide (p ∈ blocks current));
      destruct (occupied (cellAt g p));
      destruct (bool_decide (p ∈ blocks ghost)); done.
Qed.

End CursesCells.

Section LegacyCells.

Implicit Types g : @Tetris string.

Lemma placedPass_row g (yy : Z) (j : nat) (d : list (list string)) :
  rectangular (rows g) (cols g) d -> 0 <= yy < rows g ->
  Z.of_nat j <= cols g ->
  let d' :=
    fold_left (fun d xx =>
                 if occupied (grid g !!! Z.to_nat (yy * cols g + xx))
                 then set2 d yy xx
                        (coloured (cellColor
                           (grid g !!! Z.to_nat (yy * cols g + xx))) BLOCK)
                 else d)
              (seqZ 0 (Z.of_nat j)) d in
  rectangular (rows g) (cols g) d' /\
  forall y' x', 0 <= y' -> 0 <= x' ->
    get2 d' y' x' =
      if bool_decide (y' = yy /\ x' < Z.of_nat j)
         && occupied (grid g !!! Z.to_nat (y' * cols g + x'))
      then coloured (cellColor (grid g !!! Z.to_nat (y' * cols g + x'))) BLOCK
      else get2 d y' x'.
Proof.
  intros Hrect Hy. induction j as [|j IH]; intros Hj d'; subst d'.
  - rewrite seqZ_nil by lia. simpl. split; [done|]. intros y' x' Hy' Hx'.
    rewrite bool_decide_eq_false_2 by lia. done.
  - rewrite seqZ_S, fold_left_app. cbn [fold_left].
    destruct (IH ltac:(lia)) as [Hr Hg]. rewrite Z.add_0_l.
    set (done_ := fold_left _ (seqZ 0 (Z.of_nat j)) d) in *.
    destruct (occupied (grid g !!! Z.to_nat (yy * cols g + Z.of_nat j)))
      eqn:Hocc.
    + split; [by apply set2_rectangular|]. intros y' x' Hy' Hx'.
      rewrite (get2_set2 (rows g) (cols g)) by (done || lia).
      rewrite Hg by done.
      destruct (decide (y' = yy /\ x' = Z.of_nat j)) as [[-> ->]|Hne].
      * rewrite bool_decide_eq_true_2 by lia. by rewrite Hocc.
      * destruct (decide (y' = yy /\ x' < Z.of_nat j)) as [Ht|Hf].
        -- by rewrite !bool_decide_eq_true_2 by lia.
        -- by rewrite !bool_decide_eq_false_2 by lia.
    + split; [done|]. intros y' x' Hy' Hx'. rewrite Hg by done.
      destruct (decide (y' = yy /\ x' = Z.of_nat j)) as [[-> ->]|Hne].
      * rewrite bool_decide_eq_false_2 by lia.
        rewrite bool_decide_eq_true_2 by lia. by rewrite Hocc.
      * destruct (decide (y' = yy /\ x' < Z.of_nat j)) as [Ht|Hf].
        -- by rewrite !bool_decide_eq_true_2 by lia.
        -- by rewrite !bool_decide_eq_false_2 by lia.
Qed.

Lemma placedPass_rows g (i : nat) (d : list (list string)) :
  rectangular (rows g) (cols g) d -> 0 <= cols g ->
  Z.of_nat i <= rows g ->
  let d' :=
    fold_left (fun d yy =>
      fold_left (fun d xx =>
                   if occupied (grid g !!! Z.to_nat (yy * cols g + xx))
                   then set2 d yy xx
                          (coloured (cellColor
                             (grid g !!! Z.to_nat (yy * cols g + xx))) BLOCK)
                   else d)
                (seqZ 0 (cols g)) d)
      (seqZ 0 (Z.of_nat i)) d in
  rectangular (rows g) (cols g) d' /\
  forall y' x', 0 <= y' -> 0 <= x' < cols g ->
    get2 d' y' x' =
      if bool_decide (y' < Z.of_nat i)
         && occupied (grid g !!! Z.to_nat (y' * cols g + x'))
      then coloured (cellColor (grid g !!! Z.to_nat (y' * cols g + x'))) BLOCK
      else get2 d y' x'.
Proof.
  intros Hrect Hc. induction i as [|i IH]; intros Hi d'; subst d'.
  - rewrite (seqZ_nil 0 (Z.of_nat 0)) by lia. simpl. split; [done|]. intros y' x' Hy' Hx'.
    rewrite bool_decide_eq_false_2 by lia. done.
  - rewrite seqZ_S, fold_left_app. cbn [fold_left].
    destruct (IH ltac:(lia)) as [Hr Hg]. rewrite Z.add_0_l.
    set (done_ := fold_left _ (seqZ 0 (Z.of_nat i)) d) in *.
    pose proof (placedPass_row g (Z.of_nat i) (Z.to_nat (cols g)) done_ Hr
                  ltac:(lia) ltac:(lia)) as Hrow.
    rewrite Z2Nat.id in Hrow by done. cbv zeta in Hrow.
    destruct Hrow as [Hr' Hg']. split; [done|].
    intros y' x' Hy' Hx'. rewrite Hg', Hg by lia.
    destruct (decide (y' = Z.of_nat i)) as [->|Hne].
    + rewrite bool_decide_eq_true_2 by lia.
      rewrite (bool_decide_eq_false_2 (Z.of_nat i < Z.of_nat i)) by lia.
      rewrite bool_decide_eq_true_2 by lia. done.
    + rewrite (bool_decide_eq_false_2 (y' = Z.of_nat i /\ _)) by lia.
      cbn [andb].
      destruct (decide (y' < Z.of_nat i)) as [Ht|Hf].
      * by rewrite !bool_decide_eq_true_2 by lia.
      * by rewrite !bool_decide_eq_false_2 by lia.
Qed.

Lemma existsb_free_block g (bs : list Position) (p : Position) :
  isInside g p = true ->
  existsb (fun b => isInside g b
             && negb (occupied (grid g !!! Z.to_nat (cellIndex g b)))
             && bool_decide (b = p)) bs
  = negb (occupied (cellAt g p)) && bool_decide (p ∈ bs).
Proof.
  intros Hp. rewrite <- (existsb_inside_block g bs p Hp).
  induction bs as [|b bs IH]; simpl; [by rewrite andb_false_r|].
  rewrite IH. destruct (decide (b = p)) as [->|Hne].
  - rewrite !bool_decide_eq_true_2 by done. rewrite Hp. unfold cellAt.
    by destruct (occupied _).
  - rewrite !bool_decide_eq_false_2 by done.
    rewrite !andb_false_r. cbn [orb]. done.
Qed.

(** X28: a cell of the grid [render] builds in its three passes shows, in
    this order of precedence: the current piece, in its colour, where one of
    its blocks lies; a locked cell, in its own colour; the ghost, grey, on a
    free cell under one of its blocks; and the empty mark: what the curses
    program draws. *)
Theorem displayCells_draws
    (fuel : nat) g (t : @Tetromino string) (display : list (list string)) :
  0 <= rows g -> 0 <= cols g ->
  displayCells fuel g t = Ret display ->
  exists ghost,
    getGhost fuel g t = Ret ghost /\
    rectangular (rows g) (cols g) display /\
    forall xx yy, 0 <= xx < cols g -> 0 <= yy < rows g ->
      let p := mkPosition xx yy in
      get2 display yy xx =
        if bool_decide (p ∈ blocks t)
        then coloured (colorPair t) BLOCK
        else if occupied (cellAt g p)
        then coloured (cellColor (cellAt g p)) BLOCK
        else if bool_decide (p ∈ blocks ghost)
        then coloured GRAY GHOST
        else CLEAN.
Proof.
  intros Hr Hc. unfold displayCells.
  destruct (getGhost fuel g t) as [ghost| |]; simpl; try done.
  intros [= <-]. exists ghost. split; [done|].
  pose proof (placedPass_rows g (Z.to_nat (rows g))
                (table (rows g) (cols g) CLEAN)
                (table_rectangular _ _ _) Hc ltac:(lia)) as Hplaced.
  rewrite Z2Nat.id in Hplaced by done. cbv zeta in Hplaced.
  fold (placedPass g (table (rows g) (cols g) CLEAN)) in Hplaced.
  destruct Hplaced as [Hrect1 Hget1].
  assert (forall p, isInside g p = true ->
    rectangular (rows g) (cols g)
      (currentPass g t (ghostPass g ghost
         (placedPass g (table (rows g) (cols g) CLEAN)))) /\
    get2 (currentPass g t (ghostPass g ghost
            (placedPass g (table (rows g) (cols g) CLEAN)))) (y p) (x p)
    = if bool_decide (p ∈ blocks t) then coloured (colorPair t) BLOCK
      else if occupied (cellAt g p)
      then coloured (cellColor (cellAt g p)) BLOCK
      else if bool_decide (p ∈ blocks ghost) then coloured GRAY GHOST
      else CLEAN) as H.
  { intros p Hp. unfold currentPass, ghostPass.
    destruct (blockPass_get2 g
                (fun b => isInside g b
                   && negb (occupied (grid g !!! Z.to_nat (cellIndex g b))))
                (coloured GRAY GHOST) (blocks ghost) _ p Hrect1
                (fun b Hb => proj1 (proj1 (andb_true_iff _ _) Hb)) Hp)
      as [Hrect2 Hget2].
    destruct (blockPass_get2 g (isInside g) (coloured (colorPair t) BLOCK)
                (blocks t) _ p Hrect2 (fun b Hb => Hb) Hp)
      as [Hrect3 Hget3].
    split; [done|]. rewrite Hget3, Hget2.
    rewrite existsb_inside_block by done.
    destruct (bool_decide (p ∈ blocks t)); [done|].
    pose proof Hp as Hin. apply isInside_true in Hin.
    rewrite Hget1 by lia. rewrite bool_decide_eq_true_2 by lia. cbn [andb].
    rewrite get2_table by lia.
    change (grid g !!! Z.to_nat (y p * cols g + x p)) with (cellAt g p).
    rewrite (existsb_free_block g (blocks ghost) p Hp).
    destruct (occupied (cellAt g p)); simpl; [done|].
    by destruct (bool_decide (p ∈ blocks ghost)). }
  split.
  - destruct (decide (0 < rows g /\ 0 < cols g)) as [Hpos|Hnone].
    + apply (H (mkPosition 0 0)). apply isInside_true. simpl. lia.
    + assert (forall bs cond v m,
        rectangular (rows g) (cols g) m ->
        rectangular (rows g) (cols g)
          (fold_left (fun d b => if (cond b : bool)
                                 then set2 d (y b) (x b) (v : string) else d)
                     bs m)) as Hkeep.
      { induction bs as [|b bs IH]; intros cond v m Hm; simpl; [done|].
        apply IH. destruct (cond b); [|done]. by apply set2_rectangular. }
      unfold currentPass, ghostPass. by do 2 apply Hkeep.
  - intros xx yy Hx Hy. cbv zeta.
    apply (H (mkPosition xx yy)). apply isInside_true. simpl. lia.
Qed.

End LegacyCells.

(** * More definitions at work *)

Import MoreExamples.

Example yellowScore_visible :
  stripAnsi yellowScore = text "SCORE" /\ visibleLen yellowScore = 5%nat.
Proof. split; reflexivity. Qed.

Example fmt_pads_and_cuts :
  fmt 8 yellowScore = text "SCORE   " /\ fmt 3 yellowScore = text "SCO".
Proof. split; reflexivity. Qed.

Example setUi_third_line :
  setUi 4 7 (initialUi 4 7) 2 yellowScore
  = [spaces 7; spaces 7; yellowScore ++ spaces 2; spaces 7].
Proof. reflexivity. Qed.

Example layout_wide_terminal :
  layout 20 10 30 80 =
    mkLayout true 52 23 14 3 33 (mkWindow 22 32 4 14)
             (Some (mkWindow 22 18 4 48)) None.
Proof. reflexivity. Qed.

Example layout_narrow_terminal :
  layout 20 10 50 40 =
    mkLayout false 32 41 4 4 13 (mkWindow 22 32 5 4) None
             (Some (mkWindow 18 32 27 4)).
Proof. reflexivity. Qed.

Example ghostBoard_drawn :
  renderGrid 3 ghostBoard oneBlock =
    Ret [[mkCellDraw BLOCK 12 A_BOLD; mkCellDraw CLEAN 0 A_NORMAL];
         [mkCellDraw GHOST 7 A_DIM; mkCellDraw CLEAN 0 A_NORMAL];
         [mkCellDraw BLOCK 11 A_BOLD; mkCellDraw CLEAN 0 A_NORMAL]].
Proof. reflexivity. Qed.

Example legacy_ghost_rests_on_row_two :
  option_map blocks
    (match getGhost 20 legacyBoard legacyPieceI with
     | Ret t => Some t
     | _ => None
     end)
  = Some [mkPosition 3 2; mkPosition 4 2; mkPosition 5 2; mkPosition 6 2].
Proof. reflexivity. Qed.

Example restarted_twice_then_left :
  main (Tag:=Z) 20 NoFile [restartedSession; restartedSession; quitSession]
  = Ret (Stored 0).
Proof. reflexivity. Qed.

(** * More theorems at concrete inputs *)

Lemma ghostBoard_wf : wf ghostBoard.
Proof. unfold wf; simpl. repeat split; (lia || reflexivity). Defined.

Lemma rotate_four_times_witness :
  shapeIdx pieceT <> 0 /\
  blocks (rotate (rotate pieceT)) =
    [mkPosition 4 0; mkPosition 3 0; mkPosition 2 0; mkPosition 3 (-1)].
Proof.
  assert (shapeIdx pieceT <> 0) as Hne by (simpl; lia).
  split; [exact Hne|].
  destruct (rotate_four_times pieceT) as (_ & Htwice & _).
  rewrite (Htwice (mkPosition 4 0)
             [mkPosition 5 0; mkPosition 6 0; mkPosition 5 1] Hne eq_refl).
  reflexivity.
Defined.

Lemma lockTetromino_occupies_witness :
  wf ghostBoard /\
  isOccupied (lockTetromino ghostBoard oneBlock) (mkPosition 0 0) = true /\
  checkCollision (lockTetromino ghostBoard oneBlock) oneBlock = true.
Proof.
  split; [exact ghostBoard_wf|].
  destruct (lockTetromino_occupies ghostBoard oneBlock ghostBoard_wf)
    as (Hocc & _ & _ & Hhit).
  split.
  - rewrite (Hocc (mkPosition 0 0) eq_refl). reflexivity.
  - apply Hhit. simpl. discriminate.
Defined.

Lemma lockTetromino_again_witness :
  Forall (fun b => isInside ghostBoard b = false) (blocks pieceOutside) /\
  lockTetromino ghostBoard pieceOutside = ghostBoard.
Proof.
  assert (Forall (fun b => isInside ghostBoard b = false)
                 (blocks pieceOutside)) as Hout by (repeat constructor).
  split; [exact Hout|].
  destruct (lockTetromino_again ghostBoard pieceOutside) as [_ Hsame].
  exact (Hsame Hout).
Defined.

Lemma oneBlock_NoDup : NoDup (blocks oneBlock).
Proof. simpl. repeat constructor. simpl. tauto. Defined.

Lemma lockTetromino_count_witness :
  wf ghostBoard /\ checkCollision ghostBoard oneBlock = false /\
  occupiedCount (lockTetromino ghostBoard oneBlock) = 2%nat.
Proof.
  split; [exact ghostBoard_wf|]. split; [reflexivity|].
  rewrite (lockTetromino_count ghostBoard oneBlock ghostBoard_wf
             oneBlock_NoDup eq_refl).
  reflexivity.
Defined.

Lemma clearLines_count_cells_witness :
  wf smallBoard /\
  (occupiedCount (fst (clearLines smallBoard)) + 1 * 2)%nat
  = occupiedCount smallBoard.
Proof.
  split; [exact smallBoard_wf|].
  exact (clearLines_count_cells smallBoard smallBoard_wf).
Defined.

Lemma clearLines_twice_witness :
  wf smallBoard /\
  snd (clearLines (fst (clearLines smallBoard))) = 0.
Proof.
  split; [exact smallBoard_wf|].
  rewrite (clearLines_twice smallBoard smallBoard_wf ltac:(simpl; lia)).
  reflexivity.
Defined.

Lemma clearLines_fresh_board_witness :
  clearLines (newTetris (Tag:=Z) 20 10) = (newTetris 20 10, 0) /\
  snd (clearLines (newTetris (Tag:=Z) 20 0)) = 20.
Proof.
  split.
  - destruct (clearLines_fresh_board (Tag:=Z) 20 10 ltac:(lia)) as [H _].
    apply H. lia.
  - destruct (clearLines_fresh_board (Tag:=Z) 20 0 ltac:(lia)) as [_ H].
    apply H. reflexivity.
Defined.

Lemma getGhost_resting_place_witness :
  checkCollision ghostBoard oneBlock = false /\
  getGhost 3 ghostBoard oneBlock = Ret (move oneBlock (down 1)) /\
  checkCollision ghostBoard (move (move oneBlock (down 1)) VEC_DOWN) = true.
Proof.
  split; [reflexivity|].
  assert (getGhost 3 ghostBoard oneBlock = Ret (move oneBlock (down 1)))
    as Hrun by reflexivity.
  split; [exact Hrun|].
  destruct (getGhost_resting_place 3 ghostBoard oneBlock _ eq_refl Hrun)
    as (_ & Hbelow & _).
  exact Hbelow.
Defined.

Lemma getGhost_edges_witness :
  checkCollision ghostBoard (move oneBlock (down 2)) = true /\
  getGhost 0 ghostBoard (move oneBlock (down 2))
  = Ret (move (move oneBlock (down 2)) (mkPosition 0 (-1))) /\
  getGhost 50 ghostBoard (mkTetromino [] 12 1) = OutOfFuel.
Proof.
  split; [reflexivity|]. split.
  - destruct (getGhost_edges 0 ghostBoard (move oneBlock (down 2)))
      as [Hhit _].
    apply Hhit. reflexivity.
  - destruct (getGhost_edges 50 ghostBoard (mkTetromino [] 12 1))
      as [_ Hnone].
    apply Hnone. reflexivity.
Defined.


Lemma game_over_only_by_quit_or_blocked_spawn_witness :
  exists s', iteration Curses 20 quitKey startState = Ret s' /\
    gameOver s' = true /\
    (quitPressed Curses quitKey \/
     (tetromino s' = nextT startState /\
      checkCollision (game s') (tetromino s') = true)).
Proof.
  eexists. split; [reflexivity|]. split; [reflexivity|].
  apply (game_over_only_by_quit_or_blocked_spawn Curses 20 quitKey startState
           _ eq_refl eq_refl eq_refl).
Defined.




Lemma speed_follows_the_lines_witness :
  reachable Curses NoFile startState /\
  level startState = Z.quot (totalLines startState) 10 + 1.
Proof.
  split; [exact startState_reachable|].
  destruct (speed_follows_the_lines Curses NoFile startState
              startState_reachable) as (_ & H & _).
  exact H.
Defined.



Lemma plain_SCORE : ~ In ESC (text "SCORE").
Proof.
  simpl. intros H.
  repeat (destruct H as [H|H]; [discriminate H|]). exact H.
Defined.

Lemma stripAnsi_strips_witness :
  ~ In ESC (text "SCORE") /\ stripAnsi (text "SCORE") = text "SCORE".
Proof.
  split; [exact plain_SCORE|].
  destruct (stripAnsi_strips (text "SCORE")) as (_ & _ & Hplain & _).
  exact (Hplain plain_SCORE).
Defined.

Lemma no_m_in_yellow : ~ In "m"%char (text "[1;33").
Proof.
  simpl. intros H.
  repeat (destruct H as [H|H]; [discriminate H|]). exact H.
Defined.

Lemma no_m_in_reset : ~ In "m"%char (text "[0").
Proof.
  simpl. intros H.
  repeat (destruct H as [H|H]; [discriminate H|]). exact H.
Defined.

Lemma visibleLen_ignores_colours_witness :
  endsInEscape false [] = false /\
  visibleLen yellowScore = 5%nat.
Proof.
  split; [reflexivity|].
  destruct (visibleLen_ignores_colours [] (text "[1;33")
              (text "SCORE" ++ ESC :: text "[0" ++ ["m"%char])
              eq_refl no_m_in_yellow) as (_ & _ & H).
  exact (H (text "SCORE") (text "[0") plain_SCORE (fun x => x) no_m_in_reset
           eq_refl).
Defined.

Lemma setUi_keeps_the_width_witness :
  endsInEscape false yellowScore = false /\
  Forall (fun l => visibleLen l = 7%nat)
         (setUi 4 7 (initialUi 4 7) 2 yellowScore).
Proof.
  split; [reflexivity|].
  assert (Forall (fun l => visibleLen l = Z.to_nat 7) (initialUi 4 7)) as Hui
    by (repeat constructor).
  destruct (setUi_keeps_the_width 4 7 (initialUi 4 7) 2 yellowScore Hui
              eq_refl) as [H _].
  exact H.
Defined.

Lemma stacked_lines_fill_the_box_witness :
  0 <= 30 /\ length (fmt 30 yellowScore) = 30%nat /\
  length (line 30 (text "LEVEL: 1")) = 30%nat.
Proof.
  split; [lia|].
  destruct (stacked_lines_fill_the_box 30 yellowScore ltac:(lia))
    as (H1 & _).
  destruct (stacked_lines_fill_the_box 30 (text "LEVEL: 1") ltac:(lia))
    as (_ & _ & _ & H4 & _).
  split; [exact H1|exact H4].
Defined.

Lemma panelWidth_fits_witness :
  0 < 40 /\ panelWidth 10 40 = 6 /\ (10 * CELL_W + 2) + 2 + 6 <= 40.
Proof.
  split; [lia|]. split; [reflexivity|].
  destruct (panelWidth_fits 10 40) as (_ & Hfit & _).
  exact (Hfit ltac:(lia) ltac:(vm_compute; reflexivity)).
Defined.

Lemma layout_places_the_windows_witness :
  sidePanel (layout 20 10 30 80) = true /\
  0 <= originX (layout 20 10 30 80).
Proof.
  split; [reflexivity|].
  destruct (layout_places_the_windows 20 10 30 80 ltac:(lia) ltac:(lia))
    as (_ & _ & _ & _ & _ & H & _).
  exact H.
Defined.

Lemma pieceMask_marks_the_blocks_witness :
  get2 (pieceMask ghostBoard oneBlock) 0 0 = true /\
  get2 (pieceMask ghostBoard oneBlock) 1 0 = false.
Proof.
  destruct (pieceMask_marks_the_blocks ghostBoard oneBlock) as [_ H].
  split.
  - rewrite (H 0 0) by (simpl; lia). reflexivity.
  - rewrite (H 0 1) by (simpl; lia). reflexivity.
Defined.

Lemma renderGrid_draws_witness :
  exists cells, renderGrid 3 ghostBoard oneBlock = Ret cells /\
    exists ghost, getGhost 3 ghostBoard oneBlock = Ret ghost /\
                  rectangular 3 2 cells.
Proof.
  eexists. split; [reflexivity|].
  destruct (renderGrid_draws 3 ghostBoard oneBlock _ eq_refl)
    as (ghost & Hg & Hrect & _).
  exists ghost. split; [exact Hg|exact Hrect].
Defined.

Lemma displayCells_draws_witness :
  exists display, displayCells 20 legacyBoard legacyPieceI = Ret display /\
    get2 display 0 3 = coloured (colorPair legacyPieceI) BLOCK /\
    get2 display 2 3 = coloured GRAY GHOST /\
    get2 display 3 3 = coloured (pieceTag 0) BLOCK /\
    get2 display 5 3 = CLEAN.
Proof.
  assert (exists display,
            displayCells 20 legacyBoard legacyPieceI = Ret display)
    as [display E] by (eexists; vm_compute; reflexivity).
  exists display. split; [exact E|].
  assert (0 <= rows legacyBoard) as Hr by (vm_compute; discriminate).
  assert (0 <= cols legacyBoard) as Hc by (vm_compute; discriminate).
  destruct (displayCells_draws 20 legacyBoard legacyPieceI display Hr Hc E)
    as (ghost & Hg & _ & Hcell).
  assert (ghost = move legacyPieceI (mkPosition 0 2)) as ->
    by (vm_compute in Hg; injection Hg as <-; reflexivity).
  rewrite (Hcell 3 0), (Hcell 3 2), (Hcell 3 3), (Hcell 3 5)
    by (vm_compute; split; [discriminate|reflexivity]).
  vm_compute. repeat split; reflexivity.
Defined.
